(** * babel-plugin-idx: the rewriting of [idx(base, x => x.a.b())]

    A shallow embedding of [packages/babel-plugin-idx/src/babel-plugin-idx.js].

    The plugin works on Babel's syntax tree, a graph of mutable node objects,
    and one of its steps ([addLevel]) overwrites a field of a node it built
    earlier.  Node objects therefore live in a store and are named by their
    location; a node's children are locations.  Building a node allocates a
    cell, and [deepestTernary.consequent = ternary] overwrites one. *)

From Stdlib Require Import String Ascii List Arith Lia Bool.
From stdpp Require Import base tactics option list strings pretty.

Set Default Proof Using "Type".
Open Scope string_scope.
Open Scope list_scope.
Open Scope nat_scope.

(** * Part I.  The program, and the notions of the specification *)

(** ** Syntax nodes *)

(** A location in the store: the identity of a node object. *)
Abbreviation loc := nat (only parsing).

(** One node, with children of type [A]: locations in the store, subtrees in
    a tree read back from it.  The kinds are those the plugin inspects or
    builds; every other kind of node is an [OtherNode], which records whether
    Babel counts it as an expression ([t.isExpression]). *)
Inductive node (A : Type) : Type :=
| Identifier (name : string)
| NullLiteral
| MemberExpression (object property : A) (computed : bool)
| CallExpression (callee : A) (arguments : list A)
| ArrowFunctionExpression (params : list A) (body : A)
| ConditionalExpression (test consequent alternate : A)
| BinaryExpression (operator : string) (lhs rhs : A)
| AssignmentExpression (operator : string) (lhs rhs : A)
| OtherNode (type : string) (expression : bool) (children : list A).

Arguments Identifier {A} name.
Arguments NullLiteral {A}.
Arguments MemberExpression {A} object property computed.
Arguments CallExpression {A} callee arguments.
Arguments ArrowFunctionExpression {A} params body.
Arguments ConditionalExpression {A} test consequent alternate.
Arguments BinaryExpression {A} operator lhs rhs.
Arguments AssignmentExpression {A} operator lhs rhs.
Arguments OtherNode {A} type expression children.

(** The children of a node, in the order JavaScript evaluates them. *)
Definition node_children {A} (n : node A) : list A :=
  match n with
  | Identifier _ | NullLiteral => []
  | MemberExpression object property _ => [object; property]
  | CallExpression callee arguments => callee :: arguments
  | ArrowFunctionExpression params body => params ++ [body]
  | ConditionalExpression test consequent alternate =>
      [test; consequent; alternate]
  | BinaryExpression _ lhs rhs => [lhs; rhs]
  | AssignmentExpression _ lhs rhs => [lhs; rhs]
  | OtherNode _ _ children => children
  end.

Definition node_map {A B} (f : A -> B) (n : node A) : node B :=
  match n with
  | Identifier name => Identifier name
  | NullLiteral => NullLiteral
  | MemberExpression object property computed =>
      MemberExpression (f object) (f property) computed
  | CallExpression callee arguments =>
      CallExpression (f callee) (List.map f arguments)
  | ArrowFunctionExpression params body =>
      ArrowFunctionExpression (List.map f params) (f body)
  | ConditionalExpression test consequent alternate =>
      ConditionalExpression (f test) (f consequent) (f alternate)
  | BinaryExpression operator lhs rhs =>
      BinaryExpression operator (f lhs) (f rhs)
  | AssignmentExpression operator lhs rhs =>
      AssignmentExpression operator (f lhs) (f rhs)
  | OtherNode type expression children =>
      OtherNode type expression (List.map f children)
  end.

(** [container[key] = v]: the child at position [key] (in the order of
    [node_children]) replaced by [v]. *)
Definition set_child {A} (key : nat) (v : A) (n : node A) : node A :=
  match n with
  | Identifier _ | NullLiteral => n
  | MemberExpression object property computed =>
      match key with
      | 0 => MemberExpression v property computed
      | 1 => MemberExpression object v computed
      | _ => n
      end
  | CallExpression callee arguments =>
      match key with
      | 0 => CallExpression v arguments
      | S k => CallExpression callee (<[k:=v]> arguments)
      end
  | ArrowFunctionExpression params body =>
      if key <? length params
      then ArrowFunctionExpression (<[key:=v]> params) body
      else if key =? length params then ArrowFunctionExpression params v
      else n
  | ConditionalExpression test consequent alternate =>
      match key with
      | 0 => ConditionalExpression v consequent alternate
      | 1 => ConditionalExpression test v alternate
      | 2 => ConditionalExpression test consequent v
      | _ => n
      end
  | BinaryExpression operator lhs rhs =>
      match key with
      | 0 => BinaryExpression operator v rhs
      | 1 => BinaryExpression operator lhs v
      | _ => n
      end
  | AssignmentExpression operator lhs rhs =>
      match key with
      | 0 => AssignmentExpression operator v rhs
      | 1 => AssignmentExpression operator lhs v
      | _ => n
      end
  | OtherNode type expression children =>
      OtherNode type expression (<[key:=v]> children)
  end.

(** The store of node objects; a node's location is its index. *)
Abbreviation store := (list (node loc)) (only parsing).

(** ** The type tests of [context.types] *)

Definition isCallExpression (h : store) (l : loc) : bool :=
  match h !! l with Some (CallExpression _ _) => true | _ => false end.

Definition isMemberExpression (h : store) (l : loc) : bool :=
  match h !! l with Some (MemberExpression _ _ _) => true | _ => false end.

Definition isIdentifier (h : store) (l : loc) : bool :=
  match h !! l with Some (Identifier _) => true | _ => false end.

Definition isArrowFunctionExpression (h : store) (l : loc) : bool :=
  match h !! l with Some (ArrowFunctionExpression _ _) => true | _ => false end.

Definition isExpression (h : store) (l : loc) : bool :=
  match h !! l with
  | Some (OtherNode _ expression _) => expression
  | Some _ => true
  | None => false
  end.

(** [node.name], for the comparisons the plugin makes between names. *)
Definition name_of (h : store) (l : loc) : option string :=
  match h !! l with Some (Identifier name) => Some name | _ => None end.

(** ** Errors and effects *)

(** What [file.buildCodeFrameError(node, message)] builds and [throw]
    raises: the offending node and the message. *)
Record CodeFrameError := { error_node : loc; message : string }.

Definition arity_message : string :=
  "The `idx` function takes exactly two arguments.".
Definition arrow_message : string :=
  "The second argument supplied to `idx` must be an arrow function.".
Definition body_message : string :=
  ("The body of the arrow function supplied to `idx` must be a single " ++
   "expression (without curly braces).")%string.
Definition params_message : string :=
  "The arrow function supplied to `idx` must take exactly one parameter.".
Definition match_message : string :=
  ("The parameter of the arrow function supplied to `idx` must match " ++
   "the base of the body expression.")%string.

(** How a run of a model function ends: it returns, it throws, or the model
    itself gives up ([Abort]: the recursion budget is used up, or a reference
    leads outside the store or to a node of a kind the code has excluded).
    No run of the plugin on a finite tree ends in [Abort]; the theorems say
    so where they apply. *)
Inductive outcome (A : Type) : Type :=
| Return (a : A)
| Throw (e : CodeFrameError)
| Abort.

Arguments Return {A} a.
Arguments Throw {A} e.
Arguments Abort {A}.

(** The fresh-name capability, [path.scope.generateUidIdentifier] bound to
    its scope, of which the plugin reads only the [name] of the identifier
    it returns.  It is the host's, not the plugin's: a state of any type [G]
    and a function from a hint and a state to a name and the next state. *)
Class UidGenerator (G : Type) := generateUid : string -> G -> string * G.

Section Plugin.

Context {G : Type} `{!UidGenerator G}.

(** Everything a visit can change: the node objects, the state of the name
    generator, and the bindings declared by [scope.push] (the identifier
    node of each, in the order of the calls). *)
Record State := {
  nodes : store;
  uidState : G;
  declarations : list loc;
}.

(** A computation: a function of the state that ends with an outcome and a
    state.  After a [Throw] the state is the one reached when it was raised,
    as in JavaScript, where what was written before a [throw] stays written. *)
Definition M (A : Type) : Type := State -> outcome A * State.

Definition ret {A} (a : A) : M A := fun s => (Return a, s).

Definition bind {A B} (m : M A) (k : A -> M B) : M B :=
  fun s =>
    match m s with
    | (Return a, s') => k a s'
    | (Throw e, s') => (Throw e, s')
    | (Abort, s') => (Abort, s')
    end.

Definition throw {A} (e : CodeFrameError) : M A := fun s => (Throw e, s).
Definition abort {A} : M A := fun s => (Abort, s).

(** A function that only reads the nodes, run as a computation. *)
Definition reading {A} (f : store -> outcome A) : M A :=
  fun s => (f (nodes s), s).

End Plugin.

Arguments State G : clear implicits.
Arguments M G A : clear implicits.

Notation "'let*' x := m 'in' k" := (bind m (fun x => k))
  (at level 10, x name, m at level 100, k at level 200,
   format "'[' 'let*'  x  :=  m  'in'  '/' k ']'").

(** ** Primitive effects *)

Section Effects.

Context {G : Type} `{!UidGenerator G}.

(** [new_node (K a b)] is [t.K(a, b)]: a new node object, at the next free
    location. *)
Definition new_node (n : node loc) : M G loc :=
  fun s =>
    (Return (length (nodes s)),
     {| nodes := nodes s ++ [n];
        uidState := uidState s;
        declarations := declarations s |}).

(** The node object at a location. *)
Definition read (l : loc) : M G (node loc) :=
  fun s =>
    match nodes s !! l with
    | Some n => (Return n, s)
    | None => (Abort, s)
    end.

(** [ternary.consequent = v].  On a node of a kind without that field the
    assignment would add a property no reader of the tree looks at. *)
Definition set_consequent (ternary v : loc) : M G unit :=
  fun s =>
    match nodes s !! ternary with
    | Some (ConditionalExpression test _ alternate) =>
        (Return tt,
         {| nodes := <[ternary := ConditionalExpression test v alternate]>
                       (nodes s);
            uidState := uidState s;
            declarations := declarations s |})
    | Some _ => (Return tt, s)
    | None => (Abort, s)
    end.

(** [this.generateUid('ref').name] *)
Definition generateUid_name (hint : string) : M G string :=
  fun s =>
    let (uid, g) := generateUid hint (uidState s) in
    (Return uid,
     {| nodes := nodes s; uidState := g; declarations := declarations s |}).

(** A path of the host's traversal: the place of a node in its container.
    [path.node] is the child at [key] of the container; the path's scope is
    the host's and is not modelled beyond the two capabilities the plugin
    uses, the name generator and [push]. *)
Record NodePath := { container : loc; key : nat }.

(** [path.node] *)
Definition path_node (path : NodePath) : M G loc :=
  let* c := read (container path) in
  match node_children c !! key path with
  | Some l => ret l
  | None => abort
  end.

(** [path.replaceWith(v)]: the container's child at the path's key becomes
    [v]. *)
Definition replaceWith (path : NodePath) (v : loc) : M G unit :=
  fun s =>
    match nodes s !! container path with
    | Some c =>
        (Return tt,
         {| nodes := <[container path := set_child (key path) v c]> (nodes s);
            uidState := uidState s;
            declarations := declarations s |})
    | None => (Abort, s)
    end.

(** [path.scope.push({id})]: the identifier node [id] is declared, without
    an initial value, in the scope of the path. *)
Definition scope_push (id : loc) : M G unit :=
  fun s =>
    (Return tt,
     {| nodes := nodes s;
        uidState := uidState s;
        declarations := declarations s ++ [id] |}).

End Effects.

(** ** [class TransformedTernary] *)

Module TransformedTernary.

(** The fields of the object.  [generateUid] is the capability of the
    class [UidGenerator] and is the same for every object. *)
Record t := {
  uids : list string;
  expression : loc;
  deepestTernary : option loc;
  deepestExpression : loc;
}.

Section Methods.

Context {G : Type} `{!UidGenerator G}.

(** [constructor(expression, generateUid)] *)
Definition new (expression : loc) : t :=
  {| uids := [];
     expression := expression;
     deepestTernary := None;
     deepestExpression := expression |}.

(** [constructTernary(oldExpression, newExpression, uid)]; the nodes are
    allocated in the order JavaScript evaluates the nested calls. *)
Definition constructTernary (oldExpression newExpression : loc)
    (uid : string) : M G loc :=
  let* target := new_node (Identifier uid) in
  let* assignment := new_node (AssignmentExpression "=" target oldExpression) in
  let* null := new_node NullLiteral in
  let* test := new_node (BinaryExpression "!=" assignment null) in
  let* alternate := new_node (Identifier uid) in
  new_node (ConditionalExpression test newExpression alternate).

(** [addLevel(expression, uid)] *)
Definition addLevel (this : t) (expression : loc) (uid : string) : M G t :=
  let* ternary :=
    constructTernary (deepestExpression this) expression uid in
  let* this :=
    match deepestTernary this with
    | None =>
        ret {| uids := uids this;
               expression := ternary;
               deepestTernary := deepestTernary this;
               deepestExpression := deepestExpression this |}
    | Some deepest =>
        let* _ := set_consequent deepest ternary in
        ret this
    end in
  ret {| uids := uids this;
         expression := TransformedTernary.expression this;
         deepestTernary := Some ternary;
         deepestExpression := expression |}.

(** [this.uids.push(uid)] *)
Definition push_uid (this : t) (uid : string) : t :=
  {| uids := uids this ++ [uid];
     expression := expression this;
     deepestTernary := deepestTernary this;
     deepestExpression := deepestExpression this |}.

(** [appendMethodCall(args)]; [args] is the [arguments] array of a call
    node, so [args || []] is [args]. *)
Definition appendMethodCall (this : t) (args : list loc) : M G t :=
  let* uid := generateUid_name "ref" in
  let* callee := new_node (Identifier uid) in
  let* callExpression := new_node (CallExpression callee args) in
  let* this := addLevel this callExpression uid in
  ret (push_uid this uid).

(** [appendPropertyAccess(property, computed)] *)
Definition appendPropertyAccess (this : t) (property : loc)
    (computed : bool) : M G t :=
  let* uid := generateUid_name "ref" in
  let* object := new_node (Identifier uid) in
  let* accessedProperty :=
    new_node (MemberExpression object property computed) in
  let* this := addLevel this accessedProperty uid in
  ret (push_uid this uid).

End Methods.

End TransformedTernary.

(** ** The functions of the plugin *)

Section Functions.

Context {G : Type} `{!UidGenerator G}.

(** [getExpressionChainBase(node)].  The recursion follows references
    through the store, so it carries a budget; each call uses one unit. *)
Fixpoint getExpressionChainBase (fuel : nat) (h : store) (node : loc)
    : option loc :=
  match fuel with
  | 0 => None
  | S fuel =>
      match h !! node with
      | Some (CallExpression callee _) => getExpressionChainBase fuel h callee
      | Some (MemberExpression object _ _) =>
          getExpressionChainBase fuel h object
      | Some _ => Some node
      | None => None
      end
  end.

(** [checkIdxArguments(file, node)]: it reads the tree and either returns or
    throws.  [node] is a call ([isIdxCall] has said so). *)
Definition checkIdxArguments (fuel : nat) (h : store) (node : loc)
    : outcome unit :=
  match h !! node with
  | Some (CallExpression _ args) =>
      if negb (length args =? 2) then
        Throw {| error_node := node; message := arity_message |}
      else
        match args !! 1 with
        | Some arrowFunction =>
            match h !! arrowFunction with
            | Some (ArrowFunctionExpression params body) =>
                if negb (isExpression h body) then
                  Throw {| error_node := body; message := body_message |}
                else if negb (length params =? 1) then
                  Throw {| error_node := default arrowFunction (params !! 2);
                           message := params_message |}
                else
                  match params !! 0, getExpressionChainBase fuel h body with
                  | Some param, Some bodyChainBase =>
                      if negb (isIdentifier h param)
                         || negb (isIdentifier h bodyChainBase)
                         || bool_decide
                              (name_of h param ≠ name_of h bodyChainBase)
                      then
                        Throw {| error_node := param;
                                 message := match_message |}
                      else Return tt
                  | _, _ => Abort
                  end
            | Some _ =>
                Throw {| error_node := arrowFunction;
                         message := arrow_message |}
            | None => Abort
            end
        | None => Abort
        end
  | _ => Abort
  end.

(** [isIdxCall(node)] *)
Definition isIdxCall (h : store) (node : loc) : bool :=
  match h !! node with
  | Some (CallExpression callee _) =>
      match h !! callee with
      | Some (Identifier name) => String.eqb name "idx"
      | _ => false
      end
  | _ => false
  end.

(** [constructTernary(base, node, generateUid)] *)
Fixpoint constructTernary (fuel : nat) (base node : loc)
    : M G TransformedTernary.t :=
  match fuel with
  | 0 => abort
  | S fuel =>
      let* n := read node in
      match n with
      | CallExpression callee arguments =>
          let* transformedObject := constructTernary fuel base callee in
          TransformedTernary.appendMethodCall transformedObject arguments
      | MemberExpression object property computed =>
          let* transformedObject := constructTernary fuel base object in
          TransformedTernary.appendPropertyAccess
            transformedObject property computed
      | _ => ret (TransformedTernary.new base)
      end
  end.

(** The loop over [ternary.uids] at the end of the visitor. *)
Fixpoint push_uids (uids : list string) : M G unit :=
  match uids with
  | [] => ret tt
  | uid :: rest =>
      let* id := new_node (Identifier uid) in
      let* _ := scope_push id in
      push_uids rest
  end.

(** [node.arguments[0]] and [node.arguments[1].body] *)
Definition idx_arguments (h : store) (node : loc) : outcome (loc * loc) :=
  match h !! node with
  | Some (CallExpression _ [base; arrowFunction]) =>
      match h !! arrowFunction with
      | Some (ArrowFunctionExpression _ body) => Return (base, body)
      | _ => Abort
      end
  | _ => Abort
  end.

(** [idxVisitor.CallExpression(path, state)] *)
Definition CallExpression_visitor (fuel : nat) (path : NodePath) : M G unit :=
  let* node := path_node path in
  let* is_idx := reading (fun h => Return (isIdxCall h node)) in
  if is_idx : bool then
    let* _ := reading (fun h => checkIdxArguments fuel h node) in
    let* args := reading (fun h => idx_arguments h node) in
    let* ternary := constructTernary fuel (fst args) (snd args) in
    let* _ := replaceWith path (TransformedTernary.expression ternary) in
    push_uids (TransformedTernary.uids ternary)
  else ret tt.

End Functions.

(** ** The host's side: the traversal and the plugin's entry point *)

(** [idxRe = /\bidx\b/]: the characters [\w] counts as part of a word. *)
Definition is_word_char (c : ascii) : bool :=
  let n := nat_of_ascii c in
  ((48 <=? n) && (n <=? 57)) || ((65 <=? n) && (n <=? 90))
  || ((97 <=? n) && (n <=? 122)) || (n =? 95).

(** The text starts with [idx] and a word boundary follows it. *)
Definition idx_here (s : string) : bool :=
  match s with
  | String "i" (String "d" (String "x" rest)) =>
      match rest with
      | EmptyString => true
      | String c _ => negb (is_word_char c)
      end
  | _ => false
  end.

(** A match of [\bidx\b] at this position or a later one; [after_word]
    says whether the character before this position is a word character. *)
Fixpoint idxRe_from (after_word : bool) (s : string) : bool :=
  match s with
  | EmptyString => false
  | String c rest =>
      (negb after_word && idx_here s) || idxRe_from (is_word_char c) rest
  end.

(** [idxRe.test(code)] *)
Definition idxRe_test (code : string) : bool := idxRe_from false code.

Section Host.

Context {G : Type} `{!UidGenerator G}.

(** [f k] for each [k] of the list, in order. *)
Fixpoint for_each (ks : list nat) (f : nat -> M G unit) : M G unit :=
  match ks with
  | [] => ret tt
  | k :: rest => let* _ := f k in for_each rest f
  end.

(** Modelled from the spec: the host's traversal, which is Babel's and not
    part of this repository.  It is the "single-threaded, synchronous,
    depth-first tree walk" of the spec: the visitor is called on the node at
    a path, then the walk goes down into the children of the node that is at
    the path after the call (the replacement, when the visitor replaced the
    node).  A budget bounds the depth of the walk. *)
Fixpoint traverse (fuel : nat) (visit : NodePath -> M G unit)
    (path : NodePath) : M G unit :=
  match fuel with
  | 0 => abort
  | S fuel =>
      let* _ := visit path in
      let* node := path_node path in
      let* n := read node in
      for_each (seq 0 (length (node_children n)))
        (fun k => traverse fuel visit {| container := node; key := k |})
  end.

(** [path.traverse(visitor, state)]: the walk over what is below the node of
    the path. *)
Definition path_traverse (fuel : nat) (visit : NodePath -> M G unit)
    (path : NodePath) : M G unit :=
  let* node := path_node path in
  let* n := read node in
  for_each (seq 0 (length (node_children n)))
    (fun k => traverse fuel visit {| container := node; key := k |}).

(** [visitor.Program(path, state)].  [ownBinding] is what
    [path.scope.getOwnBinding('idx')] finds (a binding or nothing) and
    [code] is [state.file.code]. *)
Definition Program (fuel : nat) (ownBinding : bool) (code : string)
    (path : NodePath) : M G unit :=
  if ownBinding || idxRe_test code then
    path_traverse fuel (CallExpression_visitor fuel) path
  else ret tt.

End Host.

(** ** A name generator *)

(** A generator in the manner of Babel's [scope.generateUid]: the state is
    the list of the names in use, and the name returned is the first of
    [_ref], [_ref2], [_ref3], ... that is not in use, which then is. *)
Definition uid_candidate (hint : string) (i : nat) : string :=
  String.append (String "_" hint) (if i =? 0 then "" else pretty (S i)).

Definition first_free (hint : string) (used : list string) : string :=
  match
    List.find (fun i => negb (bool_decide (uid_candidate hint i ∈ used)))
      (seq 0 (S (length used)))
  with
  | Some i => uid_candidate hint i
  | None => uid_candidate hint (S (length used))
  end.

#[export] Instance listUid : UidGenerator (list string) :=
  fun hint used => let uid := first_free hint used in (uid, uid :: used).

(** ** Reading a tree back from the store *)

Set Warnings "-register-all".

(** A tree read from the store: each node with its location. *)
Inductive tree : Type := Node (root : loc) (n : node tree).

(** An expression: a tree without the locations. *)
Inductive expr : Type := Expr (n : node expr).

Set Warnings "register-all".

Definition root (t : tree) : loc := match t with Node l _ => l end.
Definition node_of (t : tree) : node tree := match t with Node _ n => n end.

Fixpoint erase (t : tree) : expr :=
  match t with Node _ n => Expr (node_map erase n) end.

(** The kind of a node and what it holds besides its children. *)
Definition label {A} (n : node A) : node unit := node_map (fun _ => tt) n.

(** A walk over a tree, each node before its children and the children in
    the order of evaluation: what [f] makes of the location and the label of
    each node. *)
Fixpoint walk {A} (f : loc -> node unit -> A) (t : tree) : list A :=
  match t with
  | Node l n => f l (label n) :: concat (node_children (node_map (walk f) n))
  end.

(** The locations of a tree and the labels of its nodes, in that order. *)
Abbreviation tree_locs := (walk (fun l _ => l)).
Abbreviation tree_labels := (walk (fun _ k => k)).

Definition node_traverse {A B} (f : A -> option B) (n : node A)
    : option (node B) :=
  match n with
  | Identifier name => Some (Identifier name)
  | NullLiteral => Some NullLiteral
  | MemberExpression object property computed =>
      object ← f object; property ← f property;
      Some (MemberExpression object property computed)
  | CallExpression callee arguments =>
      callee ← f callee; arguments ← mapM f arguments;
      Some (CallExpression callee arguments)
  | ArrowFunctionExpression params body =>
      params ← mapM f params; body ← f body;
      Some (ArrowFunctionExpression params body)
  | ConditionalExpression test consequent alternate =>
      test ← f test; consequent ← f consequent; alternate ← f alternate;
      Some (ConditionalExpression test consequent alternate)
  | BinaryExpression operator lhs rhs =>
      lhs ← f lhs; rhs ← f rhs; Some (BinaryExpression operator lhs rhs)
  | AssignmentExpression operator lhs rhs =>
      lhs ← f lhs; rhs ← f rhs; Some (AssignmentExpression operator lhs rhs)
  | OtherNode type expression children =>
      children ← mapM f children; Some (OtherNode type expression children)
  end.

(** The tree below a location, when the references from it form a tree no
    deeper than [fuel]. *)
Fixpoint reify (fuel : nat) (h : store) (l : loc) : option tree :=
  match fuel with
  | 0 => None
  | S fuel =>
      n ← h !! l;
      n ← node_traverse (reify fuel h) n;
      Some (Node l n)
  end.

(** ** The spec's view of the algorithm: links and guards *)

(** A chain link of the spec (section 3), carrying the nodes of the body it
    was read from. *)
Inductive link (A : Type) : Type :=
| PropertyAccess (property : A) (computed : bool)
| MethodCall (arguments : list A).

Arguments PropertyAccess {A} property computed.
Arguments MethodCall {A} arguments.

Definition link_children {A} (lk : link A) : list A :=
  match lk with
  | PropertyAccess property _ => [property]
  | MethodCall arguments => arguments
  end.

(** The spec's Chain Decomposer (section 4.2): the root of the body and its
    links, those nearest the root first. *)
Fixpoint decompose (fuel : nat) (h : store) (node : loc)
    : option (loc * list (link loc)) :=
  match fuel with
  | 0 => None
  | S fuel =>
      match h !! node with
      | Some (CallExpression callee arguments) =>
          match decompose fuel h callee with
          | Some (root, links) => Some (root, links ++ [MethodCall arguments])
          | None => None
          end
      | Some (MemberExpression object property computed) =>
          match decompose fuel h object with
          | Some (root, links) =>
              Some (root, links ++ [PropertyAccess property computed])
          | None => None
          end
      | Some _ => Some (node, [])
      | None => None
      end
  end.

(** The link's next value, on the temporary at [subject]. *)
Definition next_value {A} (subject : A) (lk : link A) : node A :=
  match lk with
  | PropertyAccess property computed =>
      MemberExpression subject property computed
  | MethodCall arguments => CallExpression subject arguments
  end.

(** The node at which the guards of [links] start when they are built from
    location [a] on: the first guard, or the previous value when there is no
    link. *)
Definition guard_root (a prev : loc) (links : list (link loc)) : loc :=
  match links with
  | [] => prev
  | _ :: _ => a + 7
  end.

(** The eight cells a link adds at location [a]: the temporary, the next
    value on it, and the guard [(uid = prev) != null ? consequent : uid]. *)
Definition guard_block (a prev : loc) (lk : link loc) (uid : string)
    (consequent : loc) : list (node loc) :=
  [ Identifier uid;
    next_value a lk;
    Identifier uid;
    AssignmentExpression "=" (a + 2) prev;
    NullLiteral;
    BinaryExpression "!=" (a + 3) (a + 4);
    Identifier uid;
    ConditionalExpression (a + 5) consequent (a + 6) ].

(** The cells of the spec's fold (section 9, "construct bottom-up from an
    immutable list") for [links] from location [a] on, [prev] being the value
    before the first of them: each guard's consequent is the next guard, and
    the last guard's is its own next value. *)
Fixpoint guard_cells (a prev : loc) (links : list (link loc))
    (names : list string) : list (node loc) :=
  match links, names with
  | lk :: links, uid :: names =>
      guard_block a prev lk uid (guard_root (a + 8) (a + 1) links)
      ++ guard_cells (a + 8) (a + 1) links names
  | _, _ => []
  end.

Definition link_map {A B} (f : A -> B) (lk : link A) : link B :=
  match lk with
  | PropertyAccess property computed => PropertyAccess (f property) computed
  | MethodCall arguments => MethodCall (List.map f arguments)
  end.

(** The guards of the spec's Ternary Builder (section 4.3) as a tree: for
    each link [(uid = prev) != null ? next : uid], the next link's guard in
    the place of [next]. *)
Fixpoint guard_tree (a : loc) (prev : tree) (links : list (link tree))
    (names : list string) : tree :=
  match links, names with
  | lk :: links, uid :: names =>
      Node (a + 7)
        (ConditionalExpression
           (Node (a + 5)
              (BinaryExpression "!="
                 (Node (a + 3)
                    (AssignmentExpression "="
                       (Node (a + 2) (Identifier uid)) prev))
                 (Node (a + 4) NullLiteral)))
           (guard_tree (a + 8)
              (Node (a + 1) (next_value (Node a (Identifier uid)) lk))
              links names)
           (Node (a + 6) (Identifier uid)))
  | _, _ => prev
  end.

(** The same without the locations. *)
Fixpoint guard_expr (prev : expr) (links : list (link expr))
    (names : list string) : expr :=
  match links, names with
  | lk :: links, uid :: names =>
      Expr
        (ConditionalExpression
           (Expr
              (BinaryExpression "!="
                 (Expr (AssignmentExpression "=" (Expr (Identifier uid)) prev))
                 (Expr NullLiteral)))
           (guard_expr (Expr (next_value (Expr (Identifier uid)) lk))
              links names)
           (Expr (Identifier uid)))
  | _, _ => prev
  end.

(** The store holds the tree [t] at [l]. *)
Definition reads (h : store) (l : loc) (t : tree) : Prop :=
  exists fuel, reify fuel h l = Some t.

(** The Chain Decomposer on a tree: the root of a body and its links. *)
Fixpoint chain_of (t : tree) : tree * list (link tree) :=
  match t with
  | Node _ (CallExpression callee arguments) =>
      let (r, links) := chain_of callee in
      (r, links ++ [MethodCall arguments])
  | Node _ (MemberExpression object property computed) =>
      let (r, links) := chain_of object in
      (r, links ++ [PropertyAccess property computed])
  | _ => (t, [])
  end.

(** The walk over a list of trees and over what the links carry, in order. *)
Definition forest {A} (f : loc -> node unit -> A) (ts : list tree) : list A :=
  concat (List.map (walk f) ts).

Definition links_walk {A} (f : loc -> node unit -> A)
    (links : list (link tree)) : list A :=
  concat (List.map (fun lk => forest f (link_children lk)) links).

Abbreviation forest_locs := (forest (fun l _ => l)).
Abbreviation links_locs := (links_walk (fun l _ => l)).
Abbreviation links_labels := (links_walk (fun _ k => k)).

(** ** The validator on a tree *)

Definition is_expression {A} (n : node A) : bool :=
  match n with OtherNode _ expression _ => expression | _ => true end.

Definition is_identifier {A} (n : node A) : bool :=
  match n with Identifier _ => true | _ => false end.

(** The spec's Shape Validator (section 4.1) on the tree of a call: arity,
    then the shape of the lambda, then the match of the parameter with the
    root of the body. *)
Definition validate (t : tree) : outcome unit :=
  match node_of t with
  | CallExpression _ [_; arrowFunction] =>
      match node_of arrowFunction with
      | ArrowFunctionExpression params body =>
          if negb (is_expression (node_of body)) then
            Throw {| error_node := root body; message := body_message |}
          else
            match params with
            | [param] =>
                match node_of param, node_of (chain_of body).1 with
                | Identifier x, Identifier y =>
                    if String.eqb x y then Return tt
                    else Throw {| error_node := root param;
                                  message := match_message |}
                | _, _ =>
                    Throw {| error_node := root param;
                             message := match_message |}
                end
            | _ =>
                Throw {| error_node :=
                           default (root arrowFunction) (root <$> params !! 2);
                         message := params_message |}
            end
      | _ =>
          Throw {| error_node := root arrowFunction;
                   message := arrow_message |}
      end
  | CallExpression _ _ =>
      Throw {| error_node := root t; message := arity_message |}
  | _ => Abort
  end.

(** Modelled from the spec: the taxonomy of errors of section 7 and the
    sub-reasons of section 4.1, which the code has only as messages. *)
Inductive ShapeReason : Type := NotALambda | BlockBody | WrongParameterCount.

Inductive ErrorKind : Type :=
| ArityError
| ShapeError (reason : ShapeReason)
| ParameterMismatchError.

Definition error_kind (e : CodeFrameError) : option ErrorKind :=
  if String.eqb (message e) arity_message then Some ArityError
  else if String.eqb (message e) arrow_message then
    Some (ShapeError NotALambda)
  else if String.eqb (message e) body_message then Some (ShapeError BlockBody)
  else if String.eqb (message e) params_message then
    Some (ShapeError WrongParameterCount)
  else if String.eqb (message e) match_message then
    Some ParameterMismatchError
  else None.

(** The conditions of section 4.1 on the tree of a call, each made total:
    a condition on a part that is not there does not hold. *)
Definition arguments_of (t : tree) : list tree :=
  match node_of t with CallExpression _ args => args | _ => [] end.

Definition has_two_arguments (t : tree) : bool :=
  length (arguments_of t) =? 2.

Definition lambda_of (t : tree) : option (list tree * tree) :=
  match arguments_of t !! 1 with
  | Some (Node _ (ArrowFunctionExpression params body)) => Some (params, body)
  | _ => None
  end.

Definition second_is_lambda (t : tree) : bool :=
  bool_decide (is_Some (lambda_of t)).

Definition body_is_expression (t : tree) : bool :=
  match lambda_of t with
  | Some (_, body) => is_expression (node_of body)
  | None => false
  end.

Definition has_one_parameter (t : tree) : bool :=
  match lambda_of t with
  | Some (params, _) => length params =? 1
  | None => false
  end.

Definition parameter_is_identifier (t : tree) : bool :=
  match lambda_of t with
  | Some (param :: _, _) => is_identifier (node_of param)
  | _ => false
  end.

Definition root_is_identifier (t : tree) : bool :=
  match lambda_of t with
  | Some (_, body) => is_identifier (node_of (chain_of body).1)
  | None => false
  end.

Definition parameter_matches (t : tree) : bool :=
  match lambda_of t with
  | Some (param :: _, body) =>
      match node_of param, node_of (chain_of body).1 with
      | Identifier x, Identifier y => String.eqb x y
      | _, _ => false
      end
  | _ => false
  end.

Section Builder.

Context {G : Type} `{!UidGenerator G}.

(** The names [n] successive calls of [generateUid('ref')] return, and the
    generator's state after them. *)
Fixpoint mint (n : nat) (g : G) : list string * G :=
  match n with
  | 0 => ([], g)
  | S n =>
      let (uid, g) := generateUid "ref" g in
      let (names, g) := mint n g in
      (uid :: names, g)
  end.

(** The Ternary Builder's step for one link, and for a sequence of them in
    order (section 4.3). *)
Definition append_link (this : TransformedTernary.t) (lk : link loc)
    : M G TransformedTernary.t :=
  match lk with
  | PropertyAccess property computed =>
      TransformedTernary.appendPropertyAccess this property computed
  | MethodCall arguments => TransformedTernary.appendMethodCall this arguments
  end.

Fixpoint append_links (this : TransformedTernary.t) (links : list (link loc))
    : M G TransformedTernary.t :=
  match links with
  | [] => ret this
  | lk :: links =>
      let* this := append_link this lk in
      append_links this links
  end.

(** The builder's [deepestTernary] and [deepestExpression] after [links]
    have been appended from location [a] on. *)
Fixpoint last_guard (a : loc) (links : list (link loc)) (d : option loc)
    : option loc :=
  match links with
  | [] => d
  | _ :: links => last_guard (a + 8) links (Some (a + 7))
  end.

Fixpoint last_value (a : loc) (links : list (link loc)) (v : loc) : loc :=
  match links with
  | [] => v
  | _ :: links => last_value (a + 8) links (a + 1)
  end.

(** What [deepestTernary.consequent = ternary] does to the store when the
    first of [links] is appended at [a]. *)
Definition patch (d : option loc) (a : loc) (links : list (link loc))
    (h : store) : store :=
  match d, links with
  | Some d, _ :: _ =>
      match h !! d with
      | Some (ConditionalExpression test _ alternate) =>
          <[d := ConditionalExpression test (a + 7) alternate]> h
      | _ => h
      end
  | _, _ => h
  end.

Definition is_ternary (h : store) (d : option loc) : Prop :=
  match d with
  | Some d => exists test consequent alternate,
      h !! d = Some (ConditionalExpression test consequent alternate)
  | None => True
  end.

End Builder.

(** ** A visit that passes validation *)

(** The tree of a call [idx(base, x => body)]. *)
Definition idx_call (t base : tree) (x : string) (body : tree) : Prop :=
  exists callee arrow param,
    node_of t =
      CallExpression (Node callee (Identifier "idx"))
        [base; Node arrow (ArrowFunctionExpression
                             [Node param (Identifier x)] body)].

(** ** The nodes of the guard tree *)

(** The number of nodes of a tree whose label satisfies [p]. *)
Definition count_nodes (p : node unit -> bool) (t : tree) : nat :=
  length (List.filter p (tree_labels t)).

Definition count_links (p : node unit -> bool) (links : list (link tree))
    : nat :=
  length (List.filter p (links_labels links)).

Definition is_conditional (k : node unit) : bool :=
  match k with ConditionalExpression _ _ _ => true | _ => false end.

Definition is_identifier_named (x : string) (k : node unit) : bool :=
  match k with Identifier y => String.eqb x y | _ => false end.


(** The nodes the visit built (at [a] or above) that are the identifier
    [uid], in the order of the walk. *)
Definition occurrence (a : loc) (uid : string) (l : loc) (k : node unit)
    : list loc :=
  if (a <=? l) && is_identifier_named uid k then [l] else [].

Definition built_occurrences (a : loc) (uid : string) (t : tree) : list loc :=
  concat (walk (occurrence a uid) t).

(** How often a name is in a list of names. *)
Definition count_name (x : string) (names : list string) : nat :=
  length (List.filter (String.eqb x) names).

(** ** The contract of the name generator *)


(** ** The guards in the store *)

(** The node at [l] is the guard of the temporary [uid] on the value at
    [previous]: the conditional [(uid = previous) != null ? consequent :
    uid], what [TransformedTernary.constructTernary(previous, consequent,
    uid)] builds. *)
Definition is_guard (h : store) (l : loc) (uid : string)
    (previous consequent : loc) : Prop :=
  exists test alternate assignment null target,
    h !! l = Some (ConditionalExpression test consequent alternate)
    /\ h !! test = Some (BinaryExpression "!=" assignment null)
    /\ h !! assignment = Some (AssignmentExpression "=" target previous)
    /\ h !! target = Some (Identifier uid)
    /\ h !! null = Some NullLiteral
    /\ h !! alternate = Some (Identifier uid).

(** The value that the guard of link [k] assigns to its temporary, when
    the links are appended from location [a] on to the value at [base]:
    [deepestExpression] at the time, which is the base for the first link
    and for the others the link before applied to its temporary, the second
    of the eight nodes built for that link. *)
Definition previous_value (a base : loc) (k : nat) : loc :=
  match k with
  | 0 => base
  | S k => a + 8 * k + 1
  end.

(** The consequent of the guard of link [k] once all [n] links are
    appended: the guard of the link after, which [addLevel] puts there, or
    for the last link the link applied to its temporary. *)
Definition consequent_of (a n k : nat) : loc :=
  if S k <? n then a + 8 * S k + 7 else a + 8 * k + 1.

(** ** Units without a call of the trigger *)

(** The subtrees of a tree, itself first. *)
Fixpoint subtrees (t : tree) : list tree :=
  match t with
  | Node l n => Node l n :: concat (node_children (node_map subtrees n))
  end.

(** The tree is a call whose callee is the identifier [idx]. *)
Definition is_trigger_call (t : tree) : bool :=
  match node_of t with
  | CallExpression (Node _ (Identifier name)) _ => String.eqb name "idx"
  | _ => false
  end.

(** ** The pre-filter *)

(** The text does not end in a word character. *)
Fixpoint ends_outside_word (after_word : bool) (s : string) : bool :=
  match s with
  | EmptyString => negb after_word
  | String c rest => ends_outside_word (is_word_char c) rest
  end.

(** The text does not start with a word character. *)
Definition starts_outside_word (s : string) : bool :=
  match s with
  | EmptyString => true
  | String c _ => negb (is_word_char c)
  end.

(** ** Call sites *)

(** The path is the place of the call [idx(base, x => body)], whose tree
    is [t], in the store of [s]; the root of the body is the parameter [x],
    and the container of the path is not part of the call. *)
Record call_site {G : Type} (s : State G) (path : NodePath) (fuel : nat)
    (t base : tree) (x : string) (body : tree) : Prop := {
  site_container : exists c,
    nodes s !! container path = Some c
    /\ node_children c !! key path = Some (root t);
  site_tree : reify fuel (nodes s) (root t) = Some t;
  site_call : idx_call t base x body;
  site_root : node_of (chain_of body).1 = Identifier x;
  site_outside : container path ∉ tree_locs t;
}.

(** Expressions, written as in JavaScript. *)
Definition e_identifier (x : string) : expr := Expr (Identifier x).
Definition e_null : expr := Expr NullLiteral.
Definition e_member (object property : expr) : expr :=
  Expr (MemberExpression object property false).
Definition e_call (callee : expr) (arguments : list expr) : expr :=
  Expr (CallExpression callee arguments).
Definition e_assign (target value : expr) : expr :=
  Expr (AssignmentExpression "=" target value).
Definition e_not_null (e : expr) : expr :=
  Expr (BinaryExpression "!=" e e_null).
Definition e_conditional (test consequent alternate : expr) : expr :=
  Expr (ConditionalExpression test consequent alternate).

(** ** Examples *)

(** A unit with one statement, the expression whose cells are given; the
    expression is at location 3 and its path is [statement_path]. *)
Definition unit_of (cells : list (node loc)) : list (node loc) :=
  [ OtherNode "File" false [1];
    OtherNode "Program" false [2];
    OtherNode "ExpressionStatement" false [3] ] ++ cells.

Definition program_path : NodePath := {| container := 0; key := 0 |}.
Definition statement_path : NodePath := {| container := 2; key := 0 |}.

Definition state_of (cells : list (node loc)) (used : list string)
    : State (list string) :=
  {| nodes := unit_of cells; uidState := used; declarations := [] |}.

(** [idx(a, x => x.b.c)] *)
Definition scenario_A : State (list string) :=
  state_of
    [ (* 3 *) CallExpression 4 [5; 6];
      (* 4 *) Identifier "idx";
      (* 5 *) Identifier "a";
      (* 6 *) ArrowFunctionExpression [7] 8;
      (* 7 *) Identifier "x";
      (* 8 *) MemberExpression 9 10 false;
      (* 9 *) MemberExpression 11 12 false;
      (* 10 *) Identifier "c";
      (* 11 *) Identifier "x";
      (* 12 *) Identifier "b" ]
    ["idx"; "a"; "x"; "b"; "c"].

(** [idx(a, x => x.b())] *)
Definition scenario_B : State (list string) :=
  state_of
    [ (* 3 *) CallExpression 4 [5; 6];
      (* 4 *) Identifier "idx";
      (* 5 *) Identifier "a";
      (* 6 *) ArrowFunctionExpression [7] 8;
      (* 7 *) Identifier "x";
      (* 8 *) CallExpression 9 [];
      (* 9 *) MemberExpression 10 11 false;
      (* 10 *) Identifier "x";
      (* 11 *) Identifier "b" ]
    ["idx"; "a"; "x"; "b"].

(** [idx(a)] *)
Definition scenario_C : State (list string) :=
  state_of
    [ (* 3 *) CallExpression 4 [5];
      (* 4 *) Identifier "idx";
      (* 5 *) Identifier "a" ]
    ["idx"; "a"].

(** [idx(a, y => x.b)] *)
Definition scenario_D : State (list string) :=
  state_of
    [ (* 3 *) CallExpression 4 [5; 6];
      (* 4 *) Identifier "idx";
      (* 5 *) Identifier "a";
      (* 6 *) ArrowFunctionExpression [7] 8;
      (* 7 *) Identifier "y";
      (* 8 *) MemberExpression 9 10 false;
      (* 9 *) Identifier "x";
      (* 10 *) Identifier "b" ]
    ["idx"; "a"; "x"; "y"; "b"].

(** [idx(a, ({b}) => b.c)]: the parameter is a pattern. *)
Definition pattern_parameter : State (list string) :=
  state_of
    [ (* 3 *) CallExpression 4 [5; 6];
      (* 4 *) Identifier "idx";
      (* 5 *) Identifier "a";
      (* 6 *) ArrowFunctionExpression [7] 9;
      (* 7 *) OtherNode "ObjectPattern" false [8];
      (* 8 *) Identifier "b";
      (* 9 *) MemberExpression 10 11 false;
      (* 10 *) Identifier "b";
      (* 11 *) Identifier "c" ]
    ["idx"; "a"; "b"; "c"].

(** [idx(a, x => x._ref)], where no binding is named [_ref]. *)
Definition property_like_a_temporary : State (list string) :=
  state_of
    [ (* 3 *) CallExpression 4 [5; 6];
      (* 4 *) Identifier "idx";
      (* 5 *) Identifier "a";
      (* 6 *) ArrowFunctionExpression [7] 8;
      (* 7 *) Identifier "x";
      (* 8 *) MemberExpression 9 10 false;
      (* 9 *) Identifier "x";
      (* 10 *) Identifier "_ref" ]
    ["idx"; "a"; "x"].

(** [idx(a, x => x)] *)
Definition no_link : State (list string) :=
  state_of
    [ (* 3 *) CallExpression 4 [5; 6];
      (* 4 *) Identifier "idx";
      (* 5 *) Identifier "a";
      (* 6 *) ArrowFunctionExpression [7] 8;
      (* 7 *) Identifier "x";
      (* 8 *) Identifier "x" ]
    ["idx"; "a"; "x"].

(** [f(a)]: a unit without a call of [idx]. *)
Definition other_call : State (list string) :=
  state_of
    [ (* 3 *) CallExpression 4 [5];
      (* 4 *) Identifier "f";
      (* 5 *) Identifier "a" ]
    ["f"; "a"].

(** The tree at a location of an example, for the witnesses. *)
Definition tree_at (s : State (list string)) (l : loc) : tree :=
  default (Node 0 NullLiteral) (reify 10 (nodes s) l).

(** ** The built expressions *)

Ltac solve_site :=
  split;
  [ eexists; split; reflexivity
  | reflexivity
  | do 3 eexists; reflexivity
  | reflexivity
  | refine (bool_decide_unpack _ _); vm_compute; exact I ].

(** The expression the spec gives for scenario B. *)
Definition scenario_B_claimed (t1 t2 : string) : expr :=
  e_conditional
    (e_not_null (e_assign (e_identifier t1) (e_identifier "a")))
    (e_conditional
       (e_not_null (e_member (e_identifier t1) (e_identifier "b")))
       (e_call
          (e_assign (e_identifier t2)
             (e_member (e_identifier t1) (e_identifier "b")))
          [])
       (e_member (e_identifier t1) (e_identifier "b")))
    (e_identifier t1).

(** The state after the visit of scenario B with Babel's names, and the
    expression at the place of the call:
    [(_ref = a) != null ? ((_ref2 = _ref.b) != null ? _ref2() : _ref2)
     : _ref]. *)
Definition scenario_B_done : State (list string) :=
  Eval vm_compute in (CallExpression_visitor 10 statement_path scenario_B).2.

Definition scenario_B_built : expr :=
  e_conditional
    (e_not_null (e_assign (e_identifier "_ref") (e_identifier "a")))
    (e_conditional
       (e_not_null
          (e_assign (e_identifier "_ref2")
             (e_member (e_identifier "_ref") (e_identifier "b"))))
       (e_call (e_identifier "_ref2") [])
       (e_identifier "_ref2"))
    (e_identifier "_ref").

(** The tree at the place of the call after the visit of scenario B. *)
Definition scenario_B_built_tree : tree :=
  Eval vm_compute in tree_at scenario_B_done 19.

(** The expression the spec gives for scenario B as a tree over the nodes
    of the call, the base [a] (5) and the property [b] (11); the spec's
    expression has the access [t1.b] three times, so the property is in
    three places.  The nodes that are not of the call are given the
    locations a visit could have built them at, the two conditionals those
    of the two guards (19 and 27). *)
Definition scenario_B_claimed_tree (t1 t2 : string) : tree :=
  Node 19
    (ConditionalExpression
       (Node 17
          (BinaryExpression "!="
             (Node 15
                (AssignmentExpression "=" (Node 14 (Identifier t1))
                   (Node 5 (Identifier "a"))))
             (Node 16 NullLiteral)))
       (Node 27
          (ConditionalExpression
             (Node 25
                (BinaryExpression "!="
                   (Node 13
                      (MemberExpression (Node 12 (Identifier t1))
                         (Node 11 (Identifier "b")) false))
                   (Node 24 NullLiteral)))
             (Node 21
                (CallExpression
                   (Node 23
                      (AssignmentExpression "=" (Node 22 (Identifier t2))
                         (Node 29
                            (MemberExpression (Node 28 (Identifier t1))
                               (Node 11 (Identifier "b")) false))))
                   []))
             (Node 31
                (MemberExpression (Node 30 (Identifier t1))
                   (Node 11 (Identifier "b")) false))))
       (Node 18 (Identifier t1))).

(** ** Guards and temporaries *)

(** The trees of scenario A, and its call site. *)
Definition scenario_A_base : tree := Node 5 (Identifier "a").

Definition scenario_A_body : tree :=
  Node 8
    (MemberExpression
       (Node 9
          (MemberExpression (Node 11 (Identifier "x"))
             (Node 12 (Identifier "b")) false))
       (Node 10 (Identifier "c")) false).

(** The state after the visit of scenario A with Babel's names, and the
    tree at the place of the call. *)
Definition scenario_A_done : State (list string) :=
  Eval vm_compute in (CallExpression_visitor 10 statement_path scenario_A).2.

Definition scenario_A_built : tree :=
  Eval vm_compute in tree_at scenario_A_done 20.

(** ** The order of evaluation *)

(** The nodes of the call that JavaScript evaluates when it evaluates the
    built expression, in order.  A node below [a] is one of the call's and
    is evaluated as a whole.  Of the nodes the visit built, a conditional
    evaluates its test and then one branch, the alternate when [nullish]
    says that the test found [null]; a comparison, an assignment, a member
    access and a call evaluate their operands from left to right; an
    identifier and a null literal evaluate nothing of the call.  The
    property of a member access is listed with its operands, also when it
    is the name of a dotted access, which stands for itself. *)
Fixpoint evaluated (a : loc) (nullish : loc -> bool) (t : tree) : list loc :=
  match t with
  | Node l n =>
      if l <? a then [l]
      else
        match n with
        | ConditionalExpression test consequent alternate =>
            evaluated a nullish test
            ++ (if nullish l then evaluated a nullish alternate
                else evaluated a nullish consequent)
        | _ => concat (node_children (node_map (evaluated a nullish) n))
        end
  end.

(** The roots of what the links carry, link after link. *)
Definition links_roots (links : list (link tree)) : list loc :=
  concat (List.map (fun lk => List.map root (link_children lk)) links).

(** How many of the [n] guards built from [a] on pass, that is are reached
    and do not find [null], before the first that does. *)
Fixpoint passed (nullish : loc -> bool) (a : loc) (n : nat) : nat :=
  match n with
  | 0 => 0
  | S n => if nullish (a + 7) then 0 else S (passed nullish (a + 8) n)
  end.

(** ** Units and the pre-filter *)

(** The unit of scenario A after the walk. *)
Definition scenario_A_walked : State (list string) :=
  Eval vm_compute in
    (path_traverse 10 (CallExpression_visitor 10) program_path scenario_A).2.

(** ** What a visit keeps *)

(** What a run from [s] to [s'] keeps of the cells below [n0]: no cell is
    removed, the cells below [n0] are as they were, and the bindings
    declared are still declared, in their order. *)
Definition keeps {G : Type} (n0 : nat) (s s' : State G) : Prop :=
  length (nodes s) <= length (nodes s')
  /\ (forall l, l < n0 -> nodes s' !! l = nodes s !! l)
  /\ declarations s `prefix_of` declarations s'.

(** The computation keeps the cells below [n0] from every state that has
    them, however it ends, and what it returns satisfies [Q]. *)
Definition grows {G : Type} {A} (n0 : nat) (Q : A -> Prop) (m : M G A)
    : Prop :=
  forall s, n0 <= length (nodes s) ->
    keeps n0 s (m s).2 /\ forall a, (m s).1 = Return a -> Q a.


(** ** The value of the built expression *)

Section Evaluation.

(** How JavaScript evaluates the expressions the visit builds; it is the
    language's and not the plugin's, and is given for the kinds of node the
    visit builds.  It is given over any values: which of them are [null] or
    [undefined], the value of each node of the call (none of which reads a
    temporary, whose names are new), and what a member access and a call
    make of the value of their object or callee and of the nodes of the
    property or of the arguments. *)
Context {value : Type} (nullish : value -> bool) (old : nat -> value)
  (member : value -> nat -> bool -> value)
  (call : value -> list nat -> value).

(** The values of the temporaries. *)
Definition env : Type := string -> option value.

Definition assign (uid : string) (v : value) (temps : env) : env :=
  fun x => if String.eqb x uid then Some v else temps x.

(** The value of an expression the visit built, and the temporaries after
    its evaluation.  A node below [a] is one of the call's and has its
    value.  Of the nodes the visit builds, an identifier is a temporary and
    has the value it was assigned; the assignment [uid = e] has the value of
    [e] and gives it to [uid]; the conditional [e != null ? c : d] has the
    value of [c] when the value of [e] is neither [null] nor [undefined]
    and that of [d] when it is; a member access and a call apply to the
    value of their object or callee. *)
Fixpoint value_of (a : nat) (temps : env) (t : tree) : option (value * env) :=
  match t with
  | Node l n =>
      if l <? a then Some (old l, temps)
      else
        match n with
        | Identifier uid =>
            match temps uid with Some v => Some (v, temps) | None => None end
        | AssignmentExpression operator (Node _ (Identifier uid)) rhs =>
            if String.eqb operator "=" then
              match value_of a temps rhs with
              | Some (v, temps) => Some (v, assign uid v temps)
              | None => None
              end
            else None
        | ConditionalExpression
            (Node _ (BinaryExpression operator lhs (Node _ NullLiteral)))
            consequent alternate =>
            if String.eqb operator "!=" then
              match value_of a temps lhs with
              | Some (v, temps) =>
                  if nullish v then value_of a temps alternate
                  else value_of a temps consequent
              | None => None
              end
            else None
        | MemberExpression object property computed =>
            match value_of a temps object with
            | Some (v, temps) => Some (member v (root property) computed, temps)
            | None => None
            end
        | CallExpression callee arguments =>
            match value_of a temps callee with
            | Some (v, temps) => Some (call v (List.map root arguments), temps)
            | None => None
            end
        | _ => None
        end
  end.

(** A link applied to a value. *)
Definition apply_link (v : value) (lk : link tree) : value :=
  match lk with
  | PropertyAccess property computed => member v (root property) computed
  | MethodCall arguments => call v (List.map root arguments)
  end.

(** The links applied one after the other, from [v] on, up to the first
    value that is [null] or [undefined]. *)
Fixpoint idx_value (v : value) (links : list (link tree)) : value :=
  match links with
  | [] => v
  | lk :: links => if nullish v then v else idx_value (apply_link v lk) links
  end.

End Evaluation.

(** ** The calls of [idx] that are left *)

(** A node as the visit builds them: a conditional, a comparison, an
    assignment, a null literal, one of the temporaries, or a member access
    or a call on one of the temporaries. *)
Definition built_node (names : list string) (c : tree) : Prop :=
  match node_of c with
  | ConditionalExpression _ _ _ | BinaryExpression _ _ _
  | AssignmentExpression _ _ _ | NullLiteral => True
  | Identifier uid
  | MemberExpression (Node _ (Identifier uid)) _ _
  | CallExpression (Node _ (Identifier uid)) _ => uid ∈ names
  | _ => False
  end.

(** ** More examples *)

(** [idx(a, (x, y) => x.b)]: two parameters. *)
Definition two_parameters : State (list string) :=
  state_of
    [ (* 3 *) CallExpression 4 [5; 6];
      (* 4 *) Identifier "idx";
      (* 5 *) Identifier "a";
      (* 6 *) ArrowFunctionExpression [7; 8] 9;
      (* 7 *) Identifier "x";
      (* 8 *) Identifier "y";
      (* 9 *) MemberExpression 10 11 false;
      (* 10 *) Identifier "x";
      (* 11 *) Identifier "b" ]
    ["idx"; "a"; "x"; "y"; "b"].

(** * Part II.  Lemmas, and the theorems of the claims *)

(** ** Reading a tree back from the store *)

Lemma node_children_map {A B} (f : A -> B) (n : node A) :
  node_children (node_map f n) = List.map f (node_children n).
Proof. destruct n; simpl; try reflexivity. symmetry. apply List.map_app. Qed.

Section Traverse.

Context {A B : Type} (f : A -> option B) (r : B -> A).

Lemma mapM_inv (l : list A) (k : list B) :
  mapM f l = Some k ->
  (forall c t, f c = Some t -> r t = c) ->
  l = List.map r k /\ Forall (fun t => f (r t) = Some t) k.
Proof.
  intros Hm Hr. apply mapM_Some in Hm.
  induction Hm as [|c t l k Hc _ [IH1 IH2]]; simpl.
  - split; [reflexivity|constructor].
  - pose proof (Hr _ _ Hc) as <-. split.
    + f_equal. exact IH1.
    + constructor; [exact Hc | exact IH2].
Qed.

Lemma mapM_map (k : list B) :
  Forall (fun t => f (r t) = Some t) k -> mapM f (List.map r k) = Some k.
Proof.
  intros Hk. apply mapM_Some.
  induction Hk; simpl; constructor; auto.
Qed.

(** A traversal returns a node of the same shape, whose children are what
    [f] made of the children it was given. *)
Lemma node_traverse_inv (n : node A) (n' : node B) :
  node_traverse f n = Some n' ->
  (forall c t, f c = Some t -> r t = c) ->
  n = node_map r n' /\ Forall (fun t => f (r t) = Some t) (node_children n').
Proof.
  intros Hn Hr.
  destruct n; simpl in Hn; simplify_option_eq; simpl;
    repeat match goal with
           | H : mapM f _ = Some _ |- _ =>
               destruct (mapM_inv _ _ H Hr) as [-> ?]; clear H
           | H : f ?c = Some ?t |- _ =>
               pose proof (Hr _ _ H) as <-; revert H
           end; intros;
    (split; [reflexivity|]); repeat constructor; auto.
  apply Forall_app; auto.
Qed.

Lemma node_traverse_map (n' : node B) :
  Forall (fun t => f (r t) = Some t) (node_children n') ->
  node_traverse f (node_map r n') = Some n'.
Proof.
  destruct n'; simpl; intros Hn; try reflexivity;
    try (apply Forall_app in Hn as [Hn1 Hn2]);
    repeat match goal with
           | H : Forall _ (_ :: _) |- _ => apply Forall_cons in H as [? H]
           end;
    repeat match goal with
           | H : f (r ?t) = Some ?t |- _ => rewrite H; clear H; simpl
           | H : Forall _ ?k |- context [mapM f (List.map r ?k)] =>
               rewrite (mapM_map _ H); simpl
           end;
    reflexivity.
Qed.

End Traverse.

Lemma reify_root fuel (h : store) l t : reify fuel h l = Some t -> root t = l.
Proof. destruct fuel; simpl; intros; simplify_option_eq; reflexivity. Qed.

(** The tree at a location, unfolded once. *)
Lemma reify_inv fuel (h : store) l t :
  reify fuel h l = Some t ->
  exists fuel', fuel = S fuel' /\ root t = l
    /\ h !! l = Some (node_map root (node_of t))
    /\ Forall (fun c => reify fuel' h (root c) = Some c)
         (node_children (node_of t)).
Proof.
  destruct fuel as [|fuel]; simpl; [discriminate|].
  intros Hr. simplify_option_eq. exists fuel.
  match goal with
  | H : node_traverse _ _ = Some _ |- _ =>
      destruct (node_traverse_inv _ root _ _ H (reify_root fuel h)) as [-> ?]
  end.
  simpl. auto.
Qed.

Lemma reify_node fuel (h : store) l n :
  h !! l = Some (node_map root n) ->
  Forall (fun c => reify fuel h (root c) = Some c) (node_children n) ->
  reify (S fuel) h l = Some (Node l n).
Proof.
  intros Hl Hn. simpl. rewrite Hl. simpl.
  rewrite (node_traverse_map _ _ _ Hn). reflexivity.
Qed.

Lemma in_walk {A} (f : loc -> node unit -> A) c n x :
  In c (node_children n) -> In x (walk f c) ->
  In x (concat (node_children (node_map (walk f) n))).
Proof.
  intros Hc Hx. rewrite node_children_map. apply in_concat.
  exists (walk f c). split; [apply (in_map (walk f)); exact Hc | exact Hx].
Qed.

(** The tree at a location depends only on the cells at its locations. *)
Lemma reify_frame fuel (h h' : store) : forall l t,
  reify fuel h l = Some t ->
  (forall l', In l' (tree_locs t) -> h' !! l' = h !! l') ->
  reify fuel h' l = Some t.
Proof.
  induction fuel as [|fuel IH]; intros l t Hr Hh; [discriminate|].
  destruct (reify_inv _ _ _ _ Hr) as (f & [= <-] & Hl & Hn & Hc).
  destruct t as [l0 n]. simpl in *. subst l0.
  apply reify_node.
  - rewrite Hh by (left; reflexivity). exact Hn.
  - rewrite Forall_forall in *. intros c Hin. apply IH; [apply Hc, Hin|].
    intros l' Hl'. apply Hh. right.
    apply (in_walk _ c); [|exact Hl'].
    apply list_elem_of_In, Hin.
Qed.

Lemma reify_mono fuel (h : store) : forall fuel' l t,
  reify fuel h l = Some t -> fuel <= fuel' -> reify fuel' h l = Some t.
Proof.
  induction fuel as [|fuel IH]; intros fuel' l t Hr Hle; [discriminate|].
  destruct (reify_inv _ _ _ _ Hr) as (f & [= <-] & Hl & Hn & Hc).
  destruct fuel' as [|fuel']; [lia|].
  destruct t as [l0 n]. simpl in *. subst l0.
  apply reify_node; [exact Hn|].
  eapply Forall_impl; [exact Hc|]. intros c Hc'. apply IH; [exact Hc'|lia].
Qed.

Lemma reify_lt fuel (h : store) : forall l t,
  reify fuel h l = Some t -> Forall (fun l' => l' < length h) (tree_locs t).
Proof.
  induction fuel as [|fuel IH]; intros l t Hr; [discriminate|].
  destruct (reify_inv _ _ _ _ Hr) as (f & [= <-] & Hl & Hn & Hc).
  destruct t as [l0 n]. simpl in *. subst l0.
  constructor; [eapply lookup_lt_Some; eauto|].
  apply Forall_forall. intros l' Hl'. apply list_elem_of_In in Hl'.
  rewrite node_children_map in Hl'. apply in_concat in Hl' as (ls & Hls & Hl').
  apply in_map_iff in Hls as (c & <- & Hin).
  rewrite Forall_forall in Hc. apply list_elem_of_In in Hin.
  specialize (IH _ _ (Hc _ Hin)). rewrite Forall_forall in IH. apply IH.
  apply list_elem_of_In, Hl'.
Qed.

Lemma reify_app fuel (h h2 : store) l t :
  reify fuel h l = Some t -> reify fuel (h ++ h2) l = Some t.
Proof.
  intros Hr. eapply reify_frame; [exact Hr|].
  intros l' Hl'. apply lookup_app_l.
  pose proof (reify_lt _ _ _ _ Hr) as Hlt. rewrite Forall_forall in Hlt.
  apply Hlt, list_elem_of_In, Hl'.
Qed.

(** ** The spec's view of the algorithm: links and guards *)

Lemma erase_guard_tree links : forall names a prev,
  erase (guard_tree a prev links names)
  = guard_expr (erase prev) (List.map (link_map erase) links) names.
Proof.
  induction links as [|lk links IH]; intros names a prev; [reflexivity|].
  destruct names as [|uid names]; [reflexivity|].
  simpl. rewrite IH. destruct lk; reflexivity.
Qed.

Lemma root_guard_tree links names a prev :
  length names = length links ->
  root (guard_tree a prev links names)
  = guard_root a (root prev) (List.map (link_map root) links).
Proof.
  destruct links, names; simpl; intros; try reflexivity; discriminate.
Qed.

Lemma reads_Forall (h : store) (ts : list tree) :
  Forall (fun c => reads h (root c) c) ts ->
  exists fuel, Forall (fun c => reify fuel h (root c) = Some c) ts.
Proof.
  induction 1 as [|c ts [f1 Hc] _ [f2 IH]].
  - exists 0. constructor.
  - exists (max f1 f2). constructor.
    + eapply reify_mono; [exact Hc|lia].
    + eapply Forall_impl; [exact IH|]. intros c' Hc'.
      eapply reify_mono; [exact Hc'|lia].
Qed.

Lemma reads_node (h : store) l n :
  h !! l = Some (node_map root n) ->
  Forall (fun c => reads h (root c) c) (node_children n) ->
  reads h l (Node l n).
Proof.
  intros Hl Hn. destruct (reads_Forall _ _ Hn) as [fuel Hf].
  exists (S fuel). apply reify_node; assumption.
Qed.

Lemma next_value_map {A B} (f : A -> B) subject (lk : link A) :
  node_map f (next_value subject lk) = next_value (f subject) (link_map f lk).
Proof. destruct lk; reflexivity. Qed.

Lemma next_value_children {A} (subject : A) (lk : link A) :
  node_children (next_value subject lk) = subject :: link_children lk.
Proof. destruct lk; reflexivity. Qed.

(** In a store that holds the cells of the fold at [a], the previous value
    and what the links carry, the root of the guards holds the guard tree. *)
Lemma reads_guards (h : store) links : forall names a prev,
  length names = length links ->
  (forall i c,
     guard_cells a (root prev) (List.map (link_map root) links) names !! i
       = Some c ->
     h !! (a + i) = Some c) ->
  reads h (root prev) prev ->
  Forall (fun lk => Forall (fun c => reads h (root c) c) (link_children lk))
    links ->
  reads h (guard_root a (root prev) (List.map (link_map root) links))
    (guard_tree a prev links names).
Proof.
  induction links as [|lk links IH]; intros names a prev Hlen Hcells Hprev Hl.
  - destruct names; exact Hprev.
  - destruct names as [|uid names]; [discriminate|].
    apply Forall_cons in Hl as [Hlk Hl]. injection Hlen as Hlen.
    cbn [List.map guard_cells] in Hcells.
    assert (Hc : forall i c,
      guard_block a (root prev) (link_map root lk) uid
        (guard_root (a + 8) (a + 1) (List.map (link_map root) links)) !! i
        = Some c -> h !! (a + i) = Some c).
    { intros i c Hi. apply Hcells. rewrite lookup_app_l; [exact Hi|].
      eapply lookup_lt_Some; eauto. }
    pose proof (Hc 0 _ eq_refl) as H0. pose proof (Hc 1 _ eq_refl) as H1.
    pose proof (Hc 2 _ eq_refl) as H2. pose proof (Hc 3 _ eq_refl) as H3.
    pose proof (Hc 4 _ eq_refl) as H4. pose proof (Hc 5 _ eq_refl) as H5.
    pose proof (Hc 6 _ eq_refl) as H6. pose proof (Hc 7 _ eq_refl) as H7.
    rewrite Nat.add_0_r in H0. clear Hc.
    set (next := Node (a + 1) (next_value (Node a (Identifier uid)) lk)).
    assert (Hnext : reads h (root next) next).
    { apply reads_node.
      - rewrite next_value_map. exact H1.
      - rewrite next_value_children. constructor; [|exact Hlk].
        apply reads_node; [exact H0|constructor]. }
    assert (Hrec : reads h
      (guard_root (a + 8) (a + 1) (List.map (link_map root) links))
      (guard_tree (a + 8) next links names)).
    { apply (IH names (a + 8) next Hlen); [|exact Hnext|exact Hl].
      intros i c Hi. replace (a + 8 + i) with (a + (8 + i)) by lia.
      apply Hcells. rewrite lookup_app_r by (simpl; lia).
      simpl length. replace (8 + i - 8) with i by lia. exact Hi. }
    simpl guard_root. cbn [guard_tree]. fold next.
    apply reads_node.
    + simpl. rewrite (root_guard_tree _ _ _ _ Hlen). exact H7.
    + simpl. repeat constructor.
      * apply reads_node; [exact H5|]. simpl. repeat constructor.
        -- apply reads_node; [exact H3|]. simpl. repeat constructor.
           ++ apply reads_node; [exact H2|constructor].
           ++ exact Hprev.
        -- apply reads_node; [exact H4|constructor].
      * rewrite (root_guard_tree _ _ _ _ Hlen). exact Hrec.
      * apply reads_node; [exact H6|constructor].
Qed.

Lemma getExpressionChainBase_decompose fuel (h : store) : forall node,
  getExpressionChainBase fuel h node = fst <$> decompose fuel h node.
Proof.
  induction fuel as [|fuel IH]; intros node; simpl; [reflexivity|].
  destruct (h !! node) as [[]|]; try reflexivity; rewrite IH;
    destruct (decompose fuel h _) as [[]|]; reflexivity.
Qed.

(** On a store that holds a tree, the Decomposer returns, and what it
    returns are the root and the links of the tree. *)
Lemma decompose_chain_of fuel (h : store) : forall l t,
  reify fuel h l = Some t ->
  decompose fuel h l
  = Some (root (chain_of t).1, List.map (link_map root) (chain_of t).2).
Proof.
  induction fuel as [|fuel IH]; intros l t Hr; [discriminate|].
  destruct (reify_inv _ _ _ _ Hr) as (f & [= <-] & Hl & Hn & Hc).
  destruct t as [l0 n]. simpl in Hl, Hn, Hc. subst l0.
  simpl decompose. rewrite Hn.
  destruct n; simpl in *; try reflexivity.
  - apply Forall_cons in Hc as [Hc _]. rewrite (IH _ _ Hc).
    destruct (chain_of object) as [r links]. simpl.
    rewrite List.map_app. reflexivity.
  - apply Forall_cons in Hc as [Hc _]. rewrite (IH _ _ Hc).
    destruct (chain_of callee) as [r links]. simpl.
    rewrite List.map_app. reflexivity.
Qed.

Lemma tree_ind' (P : tree -> Prop) :
  (forall l n, Forall P (node_children n) -> P (Node l n)) ->
  forall t, P t.
Proof.
  intros HP. fix IH 1. intros [l n]. apply HP.
  assert (Hl : forall ts : list tree, Forall P ts).
  { induction ts; constructor; [apply IH|assumption]. }
  destruct n; simpl; try apply Forall_app_2;
    repeat constructor; try apply IH; try apply Hl.
Qed.

Lemma reads_inv (h : store) l t :
  reads h l t ->
  root t = l /\ h !! l = Some (node_map root (node_of t))
  /\ Forall (fun c => reads h (root c) c) (node_children (node_of t)).
Proof.
  intros [fuel Hr].
  destruct (reify_inv _ _ _ _ Hr) as (f & -> & Hl & Hn & Hc).
  split; [exact Hl|]. split; [exact Hn|].
  eapply Forall_impl; [exact Hc|]. intros c Hc'. exists f. exact Hc'.
Qed.

(** The store holds the root of a chain and what its links carry. *)
Lemma chain_of_reads (h : store) : forall t,
  reads h (root t) t ->
  reads h (root (chain_of t).1) (chain_of t).1
  /\ Forall (fun lk => Forall (fun c => reads h (root c) c) (link_children lk))
       (chain_of t).2.
Proof.
  induction t as [l n IH] using tree_ind'. intros Hr.
  destruct (reads_inv _ _ _ Hr) as (_ & _ & Hc). simpl in Hc.
  destruct n; simpl in *; try (split; [exact Hr|constructor]).
  - apply Forall_cons in IH as [IH _].
    apply Forall_cons in Hc as [Ho Hc]. apply Forall_cons in Hc as [Hp _].
    destruct (IH Ho) as [Ha Hb].
    destruct (chain_of object) as [r links]. simpl in *. split; [exact Ha|].
    apply Forall_app. split; [exact Hb|]. repeat constructor. exact Hp.
  - apply Forall_cons in IH as [IH _].
    apply Forall_cons in Hc as [Ho Hc].
    destruct (IH Ho) as [Ha Hb].
    destruct (chain_of callee) as [r links]. simpl in *. split; [exact Ha|].
    apply Forall_app. split; [exact Hb|]. repeat constructor. exact Hc.
Qed.

Lemma walk_Node {A} (f : loc -> node unit -> A) l n :
  walk f (Node l n) = f l (label n) :: forest f (node_children n).
Proof. simpl. rewrite node_children_map. reflexivity. Qed.

(** What the links carry lies in the body, in the same order. *)
Lemma links_walk_sublist {A} (f : loc -> node unit -> A) : forall t,
  sublist (links_walk f (chain_of t).2) (walk f t).
Proof.
  induction t as [l n IH] using tree_ind'. rewrite walk_Node.
  destruct n; try apply sublist_nil_l.
  - apply Forall_cons in IH as [IH _]. simpl.
    destruct (chain_of object) as [r links]. simpl in *.
    apply sublist_cons. unfold links_walk, forest.
    rewrite List.map_app, concat_app. simpl. rewrite !app_nil_r.
    apply sublist_app; [exact IH|reflexivity].
  - apply Forall_cons in IH as [IH _]. simpl.
    destruct (chain_of callee) as [r links]. simpl in *.
    apply sublist_cons. unfold links_walk, forest.
    rewrite List.map_app, concat_app. simpl. rewrite !app_nil_r.
    apply sublist_app; [exact IH|reflexivity].
Qed.

Arguments reify : simpl never.

Lemma reify_lookup fuel (h : store) l t :
  reify fuel h l = Some t -> h !! l = Some (node_map root (node_of t)).
Proof.
  intros Hr. destruct (reify_inv _ _ _ _ Hr) as (f & _ & _ & Hn & _).
  exact Hn.
Qed.

Lemma reify_children fuel (h : store) l t :
  reify fuel h l = Some t ->
  Forall (fun c => reify fuel h (root c) = Some c) (node_children (node_of t)).
Proof.
  intros Hr. destruct (reify_inv _ _ _ _ Hr) as (f & -> & _ & _ & Hc).
  eapply Forall_impl; [exact Hc|]. intros c Hc'.
  eapply reify_mono; [exact Hc'|lia].
Qed.

(** ** The validator on a tree *)

Lemma isExpression_tree fuel (h : store) l t :
  reify fuel h l = Some t -> isExpression h l = is_expression (node_of t).
Proof.
  intros Hr. unfold isExpression. rewrite (reify_lookup _ _ _ _ Hr).
  destruct (node_of t); reflexivity.
Qed.

Lemma isIdentifier_tree fuel (h : store) l t :
  reify fuel h l = Some t -> isIdentifier h l = is_identifier (node_of t).
Proof.
  intros Hr. unfold isIdentifier. rewrite (reify_lookup _ _ _ _ Hr).
  destruct (node_of t); reflexivity.
Qed.

Lemma name_of_tree fuel (h : store) l t :
  reify fuel h l = Some t ->
  name_of h l = match node_of t with Identifier x => Some x | _ => None end.
Proof.
  intros Hr. unfold name_of. rewrite (reify_lookup _ _ _ _ Hr).
  destruct (node_of t); reflexivity.
Qed.

Lemma getExpressionChainBase_tree fuel (h : store) l t :
  reify fuel h l = Some t ->
  getExpressionChainBase fuel h l = Some (root (chain_of t).1).
Proof.
  intros Hr. rewrite getExpressionChainBase_decompose.
  rewrite (decompose_chain_of _ _ _ _ Hr). reflexivity.
Qed.

Lemma chain_of_reify fuel (h : store) l t :
  reify fuel h l = Some t ->
  exists fuel', reify fuel' h (root (chain_of t).1) = Some (chain_of t).1.
Proof.
  intros Hr. assert (Hd : reads h (root t) t).
  { exists fuel. rewrite (reify_root _ _ _ _ Hr). exact Hr. }
  exact (proj1 (chain_of_reads _ _ Hd)).
Qed.

(** The validator of the code does on the store what the spec's does on the
    tree the store holds. *)
Lemma checkIdxArguments_validate fuel (h : store) node t :
  reify fuel h node = Some t ->
  isCallExpression h node = true ->
  checkIdxArguments fuel h node = validate t.
Proof.
  intros Hr Hcall. unfold isCallExpression in Hcall.
  pose proof (reify_lookup _ _ _ _ Hr) as Hn.
  pose proof (reify_children _ _ _ _ Hr) as Hc.
  pose proof (reify_root _ _ _ _ Hr) as Hroot.
  unfold checkIdxArguments, validate. rewrite Hn in Hcall |- *.
  destruct (node_of t) as [| | |callee args| | | | |]; simpl in *;
    try discriminate.
  rewrite length_map.
  destruct args as [|b [|arrow [|c args]]]; simpl;
    try (rewrite Hroot; reflexivity).
  apply Forall_cons in Hc as [_ Hc]. apply Forall_cons in Hc as [_ Hc].
  apply Forall_cons in Hc as [Ha _].
  rewrite (reify_lookup _ _ _ _ Ha).
  pose proof (reify_children _ _ _ _ Ha) as Hca.
  destruct (node_of arrow) as [| | | |params body| | | |]; simpl in *;
    try reflexivity.
  apply Forall_app in Hca as [Hps Hb]. apply Forall_cons in Hb as [Hb _].
  rewrite (isExpression_tree _ _ _ _ Hb).
  destruct (is_expression (node_of body)); simpl; [|reflexivity].
  rewrite length_map.
  destruct params as [|param [|p2 params]]; simpl; try reflexivity.
  - apply Forall_cons in Hps as [Hp _].
    rewrite (getExpressionChainBase_tree _ _ _ _ Hb).
    destruct (chain_of_reify _ _ _ _ Hb) as [f' Hroot'].
    rewrite (isIdentifier_tree _ _ _ _ Hp), (isIdentifier_tree _ _ _ _ Hroot').
    rewrite (name_of_tree _ _ _ _ Hp), (name_of_tree _ _ _ _ Hroot').
    destruct (node_of param), (node_of (chain_of body).1); simpl;
      try reflexivity.
    destruct (String.eqb_spec name name0) as [->|Hne].
    + rewrite bool_decide_eq_false_2; [reflexivity|]. intros Hx.
      apply Hx. reflexivity.
    + rewrite bool_decide_eq_true_2; [reflexivity|]. congruence.
  - destruct params; reflexivity.
Qed.

Section Refinement.

Context {G : Type} `{!UidGenerator G}.

Lemma bind_assoc {A B C} (m : M G A) (f : A -> M G B) (g : B -> M G C) s :
  bind (bind m f) g s = bind m (fun x => bind (f x) g) s.
Proof. unfold bind. destruct (m s) as [[a| |] s']; reflexivity. Qed.

Lemma bind_ext {A B} (m : M G A) (f g : A -> M G B) s :
  (forall a s', f a s' = g a s') -> bind m f s = bind m g s.
Proof. intros E. unfold bind. destruct (m s) as [[a| |] s']; auto. Qed.

Lemma append_links_snoc links lk this s :
  append_links this (links ++ [lk]) s
  = (let* this := append_links this links in append_link this lk) s.
Proof.
  revert this s. induction links as [|l0 links IH]; intros this s; simpl.
  - unfold bind, ret.
    destruct (append_link this lk s) as [[a| |] s']; reflexivity.
  - rewrite bind_assoc. apply bind_ext. intros a s'. apply IH.
Qed.

(** The recursion of [constructTernary] reads the whole chain before it
    builds anything, and then appends the links in the Decomposer's order. *)
Lemma constructTernary_append_links fuel base node root links s :
  decompose fuel (nodes s) node = Some (root, links) ->
  constructTernary fuel base node s
  = append_links (TransformedTernary.new base) links s.
Proof.
  revert node links. induction fuel as [|fuel IH]; intros node links;
    simpl; [discriminate|].
  unfold bind at 1, read.
  destruct (nodes s !! node) as [n|]; [|discriminate].
  destruct n; try (intros [= <- <-]; reflexivity).
  - destruct (decompose fuel (nodes s) object) as [[r ls]|] eqn:E;
      [|discriminate].
    intros [= <- <-]. rewrite append_links_snoc. unfold bind.
    rewrite (IH _ _ E). reflexivity.
  - destruct (decompose fuel (nodes s) callee) as [[r ls]|] eqn:E;
      [|discriminate].
    intros [= <- <-]. rewrite append_links_snoc. unfold bind.
    rewrite (IH _ _ E). reflexivity.
Qed.

Lemma length_patch d a links (h : store) :
  length (patch d a links h) = length h.
Proof.
  unfold patch. destruct d as [d|], links as [|lk links]; try reflexivity.
  destruct (h !! d) as [[]|]; try reflexivity. apply length_insert.
Qed.

Lemma patch_block a prev lk uid links (h : store) :
  length h = a ->
  patch (Some (a + 7)) (a + 8) links (h ++ guard_block a prev lk uid (a + 1))
  = h ++ guard_block a prev lk uid (guard_root (a + 8) (a + 1) links).
Proof.
  intros <-. destruct links as [|l0 links]; [reflexivity|].
  unfold patch.
  rewrite lookup_app_r by lia.
  replace (length h + 7 - length h) with 7 by lia. cbn [guard_block lookup].
  simpl.
  rewrite insert_app_r_alt by lia.
  replace (length h + 7 - length h) with 7 by lia. reflexivity.
Qed.

(** One link appended: a name is minted, the eight cells are allocated, and
    the consequent of the deepest guard, when there is one, is overwritten. *)
Lemma append_link_step this lk s :
  is_ternary (nodes s) (TransformedTernary.deepestTernary this) ->
  append_link this lk s =
    let a := length (nodes s) in
    let (uid, g) := generateUid "ref" (uidState s) in
    (Return {| TransformedTernary.uids :=
                 TransformedTernary.uids this ++ [uid];
               TransformedTernary.expression :=
                 match TransformedTernary.deepestTernary this with
                 | None => a + 7
                 | Some _ => TransformedTernary.expression this
                 end;
               TransformedTernary.deepestTernary := Some (a + 7);
               TransformedTernary.deepestExpression := a + 1 |},
     {| nodes := patch (TransformedTernary.deepestTernary this) a [lk]
                   (nodes s)
                 ++ guard_block a (TransformedTernary.deepestExpression this)
                      lk uid (a + 1);
        uidState := g;
        declarations := declarations s |}).
Proof.
  intros Hd. destruct s as [h g0 ds]. simpl in *.
  destruct lk; simpl;
    unfold TransformedTernary.appendPropertyAccess,
      TransformedTernary.appendMethodCall, TransformedTernary.addLevel,
      TransformedTernary.constructTernary,
      bind, generateUid_name, new_node, ret; simpl;
    destruct (generateUid "ref" g0) as [uid g]; simpl.
  all: rewrite ?length_app; simpl; rewrite <- ?Nat.add_assoc; simpl.
  all: rewrite <- ?app_assoc; simpl.
  all: destruct (TransformedTernary.deepestTernary this) as [d|]; simpl;
    [|reflexivity].
  all: destruct Hd as (test & consequent & alternate & Hd).
  all: unfold set_consequent; cbn [nodes uidState declarations].
  all: rewrite lookup_app_l by (eapply lookup_lt_Some; eauto).
  all: rewrite Hd; simpl.
  all: rewrite insert_app_l by (eapply lookup_lt_Some; eauto).
  all: reflexivity.
Qed.

(** The store after a sequence of links has been appended, in closed form:
    the cells of the spec's fold are added to the store, and of the cells
    that were there only the deepest guard changes. *)
Lemma append_links_store links : forall this s,
  is_ternary (nodes s) (TransformedTernary.deepestTernary this) ->
  append_links this links s =
    let a := length (nodes s) in
    let (names, g) := mint (length links) (uidState s) in
    (Return {| TransformedTernary.uids :=
                 TransformedTernary.uids this ++ names;
               TransformedTernary.expression :=
                 match TransformedTernary.deepestTernary this with
                 | None =>
                     guard_root a (TransformedTernary.expression this) links
                 | Some _ => TransformedTernary.expression this
                 end;
               TransformedTernary.deepestTernary :=
                 last_guard a links (TransformedTernary.deepestTernary this);
               TransformedTernary.deepestExpression :=
                 last_value a links
                   (TransformedTernary.deepestExpression this) |},
     {| nodes := patch (TransformedTernary.deepestTernary this) a links
                   (nodes s)
                 ++ guard_cells a (TransformedTernary.deepestExpression this)
                      links names;
        uidState := g;
        declarations := declarations s |}).
Proof.
  induction links as [|lk links IH]; intros this s Hd.
  - destruct this as [us e d de], s as [h g ds]. simpl.
    unfold ret. rewrite !app_nil_r. destruct d; reflexivity.
  - cbn [append_links]. unfold bind. rewrite (append_link_step _ _ _ Hd).
    cbn zeta. cbn [length mint].
    destruct (generateUid "ref" (uidState s)) as [uid g1].
    rewrite IH;
      cbn [nodes uidState declarations TransformedTernary.uids
           TransformedTernary.expression TransformedTernary.deepestTernary
           TransformedTernary.deepestExpression].
    2:{ simpl. do 3 eexists.
        rewrite lookup_app_r by (rewrite length_patch; lia).
        rewrite length_patch.
        replace (length (nodes s) + 7 - length (nodes s)) with 7 by lia.
        reflexivity. }
    rewrite length_app, length_patch. cbn [guard_block length].
    rewrite patch_block by apply length_patch.
    destruct (mint (length links) g1) as [names g2].
    cbn [guard_cells last_guard last_value guard_root].
    rewrite <- !app_assoc.
    destruct (TransformedTernary.deepestTernary this); reflexivity.
Qed.

End Refinement.

(** ** A visit that passes validation *)

Section Visit.

Context {G : Type} `{!UidGenerator G}.

Lemma mint_length n : forall g : G, length (mint n g).1 = n.
Proof.
  induction n as [|n IH]; intros g; simpl; [reflexivity|].
  destruct (generateUid "ref" g) as [uid g1]. specialize (IH g1).
  destruct (mint n g1) as [names g2]. simpl in *. congruence.
Qed.

Lemma guard_cells_length links : forall names a prev,
  length names = length links ->
  length (guard_cells a prev links names) = 8 * length links.
Proof.
  induction links as [|lk links IH]; intros [|uid names] a prev Hlen;
    try discriminate; [reflexivity|].
  injection Hlen as Hlen. cbn [guard_cells].
  rewrite length_app, IH by exact Hlen.
  simpl. lia.
Qed.

Lemma push_uids_store names : forall s : State G,
  push_uids names s =
    (Return tt,
     {| nodes := nodes s ++ List.map Identifier names;
        uidState := uidState s;
        declarations :=
          declarations s ++ seq (length (nodes s)) (length names) |}).
Proof.
  induction names as [|uid names IH]; intros [h g ds]; simpl.
  - unfold ret. rewrite !app_nil_r. reflexivity.
  - unfold bind, new_node, scope_push. simpl. rewrite IH. simpl.
    rewrite length_app, <- !app_assoc. simpl.
    rewrite Nat.add_1_r. reflexivity.
Qed.

Lemma chain_of_expression t x :
  node_of (chain_of t).1 = Identifier x -> is_expression (node_of t) = true.
Proof.
  destruct t as [l []]; simpl; try reflexivity. intros; discriminate.
Qed.

(** The visit of a call that passes validation, in closed form: the cells of
    the fold are added to the store, then one identifier for each temporary,
    and the container's child at the path's key becomes the root of the
    guards; each temporary is declared. *)
Lemma visit_store fuel path (s : State G) c call t base x body :
  nodes s !! container path = Some c ->
  node_children c !! key path = Some call ->
  reify fuel (nodes s) call = Some t ->
  idx_call t base x body ->
  node_of (chain_of body).1 = Identifier x ->
  CallExpression_visitor fuel path s =
    let a := length (nodes s) in
    let links := List.map (link_map root) (chain_of body).2 in
    let (names, g) := mint (length links) (uidState s) in
    (Return tt,
     {| nodes :=
          <[container path := set_child (key path)
                                (guard_root a (root base) links) c]> (nodes s)
          ++ guard_cells a (root base) links names
          ++ List.map Identifier names;
        uidState := g;
        declarations :=
          declarations s ++ seq (a + 8 * length links) (length links) |}).
Proof.
  intros Hc Hk Hr (callee & arrow & param & Ht) Hx.
  pose proof (reify_lookup _ _ _ _ Hr) as Hn. rewrite Ht in Hn. simpl in Hn.
  pose proof (reify_children _ _ _ _ Hr) as Hch. rewrite Ht in Hch.
  simpl in Hch.
  apply Forall_cons in Hch as [Hi Hch]. apply Forall_cons in Hch as [Hb Hch].
  apply Forall_cons in Hch as [Ha _].
  pose proof (reify_lookup _ _ _ _ Hi) as Hni. simpl in Hni.
  pose proof (reify_lookup _ _ _ _ Ha) as Hna. simpl in Hna.
  pose proof (reify_children _ _ _ _ Ha) as Hca. simpl in Hca.
  apply Forall_cons in Hca as [Hp Hca]. apply Forall_cons in Hca as [Hbody _].
  assert (Hcall : isCallExpression (nodes s) call = true).
  { unfold isCallExpression. rewrite Hn. reflexivity. }
  assert (Hcheck : checkIdxArguments fuel (nodes s) call = Return tt).
  { rewrite (checkIdxArguments_validate _ _ _ _ Hr Hcall).
    unfold validate. rewrite Ht. simpl.
    rewrite (chain_of_expression _ _ Hx), Hx. simpl.
    rewrite String.eqb_refl. reflexivity. }
  unfold CallExpression_visitor, path_node, bind at 1 2, read.
  rewrite Hc. unfold ret at 1. rewrite Hk.
  unfold bind at 1, reading at 1, isIdxCall. rewrite Hn, Hni. simpl.
  unfold bind at 1, reading at 1. rewrite Hcheck.
  unfold bind at 1, reading at 1, idx_arguments. rewrite Hn, Hna. simpl.
  unfold bind at 1.
  erewrite constructTernary_append_links
    by (apply decompose_chain_of; exact Hbody).
  rewrite append_links_store by exact I.
  cbn zeta. rewrite length_map.
  pose proof (mint_length (length (chain_of body).2) (uidState s)) as Hlen.
  destruct (mint (length (chain_of body).2) (uidState s)) as [names g].
  simpl in Hlen.
  cbn [TransformedTernary.new TransformedTernary.deepestTernary
       TransformedTernary.expression TransformedTernary.uids
       TransformedTernary.deepestExpression patch nodes].
  unfold bind, replaceWith. cbn [nodes uidState declarations].
  rewrite lookup_app_l by (eapply lookup_lt_Some; eauto).
  rewrite Hc. rewrite push_uids_store. cbn [nodes uidState declarations].
  rewrite insert_app_l by (eapply lookup_lt_Some; eauto).
  rewrite !length_app, length_insert, guard_cells_length
    by (rewrite length_map; exact Hlen).
  rewrite length_map, Hlen, <- app_assoc. reflexivity.
Qed.

End Visit.

Lemma set_child_lookup {A} (n : node A) k v old :
  node_children n !! k = Some old ->
  node_children (set_child k v n) !! k = Some v.
Proof.
  destruct n; simpl; intros Hk; apply lookup_lt_Some in Hk; simpl in Hk.
  - lia.
  - lia.
  - destruct k as [|[|k]]; [reflexivity|reflexivity|lia].
  - destruct k as [|k]; [reflexivity|]. simpl.
    apply list_lookup_insert_eq. lia.
  - rewrite length_app in Hk. simpl in Hk.
    destruct (Nat.ltb_spec k (length params)).
    + simpl. rewrite lookup_app_l by (rewrite length_insert; lia).
      apply list_lookup_insert_eq. lia.
    + replace (k =? length params) with true
        by (symmetry; apply Nat.eqb_eq; lia).
      simpl. rewrite lookup_app_r by lia.
      replace (k - length params) with 0 by lia. reflexivity.
  - destruct k as [|[|[|k]]]; [reflexivity|reflexivity|reflexivity|lia].
  - destruct k as [|[|k]]; [reflexivity|reflexivity|lia].
  - destruct k as [|[|k]]; [reflexivity|reflexivity|lia].
  - apply list_lookup_insert_eq. exact Hk.
Qed.

Lemma idx_call_walk {A} (f : loc -> node unit -> A) t base x body :
  idx_call t base x body ->
  walk f base ++ walk f body `sublist_of` walk f t.
Proof.
  intros (callee & arrow & param & Ht). destruct t as [l n]. simpl in Ht.
  subst n. simpl. rewrite !app_nil_r.
  apply sublist_cons, sublist_cons, sublist_app; [reflexivity|].
  apply sublist_cons, sublist_cons. reflexivity.
Qed.

(** A tree that the store holds is still there when cells are added to the
    store and a cell outside the tree is overwritten. *)
Lemma reads_frame fuel (h h2 : store) l t k v :
  reify fuel h l = Some t ->
  k ∉ tree_locs t ->
  reads (<[k := v]> h ++ h2) l t.
Proof.
  intros Hr Hk. exists fuel. eapply reify_frame; [exact Hr|].
  intros l' Hl'. pose proof (reify_lt _ _ _ _ Hr) as Hlt.
  rewrite Forall_forall in Hlt. apply list_elem_of_In in Hl'.
  rewrite lookup_app_l by (rewrite length_insert; apply Hlt, Hl').
  apply list_lookup_insert_ne. intros ->. exact (Hk Hl').
Qed.

Lemma elem_of_links_locs l (lk : link tree) p links :
  p ∈ link_children lk -> lk ∈ links -> l ∈ tree_locs p ->
  l ∈ links_locs links.
Proof.
  rewrite !list_elem_of_In. intros Hp Hlk Hl.
  unfold links_walk. apply in_concat.
  exists (forest_locs (link_children lk)). split.
  - apply (in_map (fun lk => forest_locs (link_children lk))). exact Hlk.
  - unfold forest. apply in_concat. exists (tree_locs p).
    split; [apply (in_map tree_locs); exact Hp|exact Hl].
Qed.

Section VisitReads.

Context {G : Type} `{!UidGenerator G}.

(** After the visit the path holds the root of the guards, and the store
    holds there the guard tree of the spec's Ternary Builder, over the tree
    of the base and what the links of the body carry. *)
Lemma visit_reads fuel path (s : State G) c call t base x body :
  nodes s !! container path = Some c ->
  node_children c !! key path = Some call ->
  reify fuel (nodes s) call = Some t ->
  idx_call t base x body ->
  node_of (chain_of body).1 = Identifier x ->
  container path ∉ tree_locs t ->
  exists s' result,
    CallExpression_visitor fuel path s = (Return tt, s')
    /\ path_node path s' = (Return result, s')
    /\ reads (nodes s') result
         (guard_tree (length (nodes s)) base (chain_of body).2
            (mint (length (chain_of body).2) (uidState s)).1).
Proof.
  intros Hc Hk Hr Hi Hx Hout.
  rewrite (visit_store _ _ _ _ _ _ _ _ _ Hc Hk Hr Hi Hx). cbn zeta.
  rewrite length_map.
  pose proof (mint_length (length (chain_of body).2) (uidState s)) as Hlen.
  destruct (mint (length (chain_of body).2) (uidState s)) as [names g].
  simpl in Hlen. simpl fst.
  pose proof (idx_call_walk (fun l _ => l) _ _ _ _ Hi) as Hsub.
  destruct Hi as (callee & arrow & param & Ht).
  pose proof (reify_children _ _ _ _ Hr) as Hch. rewrite Ht in Hch.
  simpl in Hch.
  apply Forall_cons in Hch as [_ Hch]. apply Forall_cons in Hch as [Hb Hch].
  apply Forall_cons in Hch as [Ha _].
  pose proof (reify_children _ _ _ _ Ha) as Hca. simpl in Hca.
  apply Forall_cons in Hca as [_ Hca]. apply Forall_cons in Hca as [Hbody _].
  eexists _, _. split; [reflexivity|]. split.
  - unfold path_node, bind, read. cbn [nodes].
    rewrite lookup_app_l
      by (rewrite length_insert; eapply lookup_lt_Some; eauto).
    rewrite list_lookup_insert_eq by (eapply lookup_lt_Some; eauto).
    rewrite (set_child_lookup _ _ _ _ Hk). reflexivity.
  - cbn [nodes].
    assert (Hbase : container path ∉ tree_locs base).
    { intros Hin. apply Hout. eapply elem_of_sublist; [|exact Hsub].
      apply elem_of_app. left. exact Hin. }
    apply reads_guards.
    + exact Hlen.
    + intros i cell Hcell.
      rewrite lookup_app_r by (rewrite length_insert; lia).
      rewrite length_insert. replace (length (nodes s) + i - length (nodes s))
        with i by lia.
      rewrite lookup_app_l by (eapply lookup_lt_Some; eauto). exact Hcell.
    + eapply reads_frame; [exact Hb|exact Hbase].
    + assert (Hd : reads (nodes s) (root body) body).
      { exists fuel. exact Hbody. }
      destruct (chain_of_reads _ _ Hd) as [_ Hlinks].
      pose proof (links_walk_sublist (fun l _ => l) body) as Hs.
      revert Hlinks Hs. generalize ((chain_of body).2). intros links Hlinks Hs.
      rewrite Forall_forall in Hlinks |- *. intros lk Hlk.
      specialize (Hlinks lk Hlk).
      rewrite Forall_forall in Hlinks |- *. intros p Hp.
      destruct (Hlinks p Hp) as [f Hf]. eapply reads_frame; [exact Hf|].
      intros Hin. apply Hout. eapply elem_of_sublist; [|exact Hsub].
      apply elem_of_app. right. eapply elem_of_sublist; [|exact Hs].
      eapply elem_of_links_locs; eauto.
Qed.

End VisitReads.

(** ** The nodes of the guard tree *)

Lemma walk_next {A} (f : loc -> node unit -> A) a uid lk :
  walk f (Node (a + 1) (next_value (Node a (Identifier uid)) lk))
  = f (a + 1) (label (next_value (Node a (Identifier uid)) lk))
    :: f a (Identifier uid) :: forest f (link_children lk).
Proof.
  rewrite walk_Node. destruct lk; simpl; unfold forest; simpl;
    rewrite ?app_nil_r; reflexivity.
Qed.

Lemma walk_guard_tree {A} (f : loc -> node unit -> A) a prev lk links uid
    names :
  walk f (guard_tree a prev (lk :: links) (uid :: names))
  = f (a + 7) (ConditionalExpression tt tt tt)
    :: f (a + 5) (BinaryExpression "!=" tt tt)
    :: f (a + 3) (AssignmentExpression "=" tt tt)
    :: f (a + 2) (Identifier uid)
    :: walk f prev
    ++ f (a + 4) NullLiteral
    :: walk f (guard_tree (a + 8)
                 (Node (a + 1) (next_value (Node a (Identifier uid)) lk))
                 links names)
    ++ [f (a + 6) (Identifier uid)].
Proof.
  cbn [guard_tree]. rewrite !walk_Node. simpl. unfold forest. simpl.
  rewrite !app_nil_r. rewrite <- app_assoc. reflexivity.
Qed.

Lemma links_walk_cons {A} (f : loc -> node unit -> A) lk links :
  links_walk f (lk :: links)
  = forest f (link_children lk) ++ links_walk f links.
Proof. reflexivity. Qed.

Lemma label_next_value (subject : tree) lk :
  is_conditional (label (next_value subject lk)) = false
  /\ forall x, is_identifier_named x (label (next_value subject lk)) = false.
Proof. destruct lk; split; reflexivity. Qed.

Section Count.

Context {A : Type} (p : A -> bool).

Lemma count_cons x l :
  length (List.filter p (x :: l))
  = (if p x then 1 else 0) + length (List.filter p l).
Proof. simpl. destruct (p x); reflexivity. Qed.

Lemma count_app l1 l2 :
  length (List.filter p (l1 ++ l2))
  = length (List.filter p l1) + length (List.filter p l2).
Proof. rewrite List.filter_app. apply length_app. Qed.

End Count.

(** The nodes the guards add to those of the base and of what the links
    carry: for each link a conditional, a comparison, an assignment, a null
    literal, the next value and three identifiers. *)
Lemma count_guard_tree (p : node unit -> bool) links : forall names a prev,
  length names = length links ->
  (forall subject lk, p (label (@next_value tree subject lk)) = false) ->
  count_nodes p (guard_tree a prev links names)
  = length links
    * ((if p (ConditionalExpression tt tt tt) then 1 else 0)
       + (if p (BinaryExpression "!=" tt tt) then 1 else 0)
       + (if p (AssignmentExpression "=" tt tt) then 1 else 0)
       + (if p NullLiteral then 1 else 0))
    + 3 * length (List.filter (fun uid => p (Identifier uid)) names)
    + count_nodes p prev + count_links p links.
Proof.
  unfold count_nodes, count_links. intros names a prev Hlen Hnext.
  revert names a prev Hlen.
  induction links as [|lk links IH]; intros [|uid names] a prev Hlen;
    try discriminate; [simpl; lia|].
  injection Hlen as Hlen.
  rewrite walk_guard_tree, !count_cons, count_app, count_cons, count_app.
  rewrite (IH names _ _ Hlen), walk_next, !count_cons, links_walk_cons,
    count_app, Hnext.
  cbn [List.filter length]. destruct (p (Identifier uid)); simpl; lia.
Qed.


(** The guards add three occurrences of each temporary to the identifiers of
    the base and of what the links carry. *)
Lemma count_identifier_guard_tree x links names a prev :
  length names = length links ->
  count_nodes (is_identifier_named x) (guard_tree a prev links names)
  = 3 * count_name x names + count_nodes (is_identifier_named x) prev
    + count_links (is_identifier_named x) links.
Proof.
  intros Hlen. rewrite count_guard_tree; [|exact Hlen|].
  - unfold count_name.
    change (fun uid => is_identifier_named x (Identifier uid))
      with (String.eqb x).
    cbn [is_identifier_named]. lia.
  - intros subject []; reflexivity.
Qed.


(** ** The locations of the guard tree *)

Lemma filter_Forall_id {A} (P : A -> Prop) `{forall x, Decision (P x)} l :
  Forall P l -> filter P l = l.
Proof.
  induction 1 as [|x l Hx _ IH]; [reflexivity|].
  rewrite filter_cons_True by exact Hx. rewrite IH. reflexivity.
Qed.

(** Of the locations below [a0], the guard tree has those of the base and
    then those of what each link carries, link after link. *)
Lemma guard_tree_old_locs a0 links : forall names a prev,
  length names = length links ->
  a0 <= a ->
  Forall (fun l => l < a0) (links_locs links) ->
  filter (fun l => l < a0) (tree_locs (guard_tree a prev links names))
  = filter (fun l => l < a0) (tree_locs prev) ++ links_locs links.
Proof.
  induction links as [|lk links IH]; intros [|uid names] a prev Hlen Ha Hl;
    try discriminate; [simpl; rewrite app_nil_r; reflexivity|].
  injection Hlen as Hlen. rewrite links_walk_cons in Hl |- *.
  apply Forall_app in Hl as [Hlk Hl].
  rewrite walk_guard_tree.
  assert (Hnew : forall k l, a <= k ->
    filter (fun l => l < a0) (k :: l) = filter (fun l => l < a0) l).
  { intros k l Hk. apply filter_cons_False. lia. }
  rewrite !Hnew by lia.
  rewrite filter_app, Hnew by lia.
  rewrite filter_app, (IH names _ _ Hlen) by (lia || exact Hl).
  rewrite walk_next, !Hnew by lia.
  rewrite (filter_Forall_id _ _ Hlk), filter_nil, app_nil_r. reflexivity.
Qed.

Lemma guard_tree_locs_bound links : forall names a prev l,
  l ∈ tree_locs (guard_tree a prev links names) ->
  l ∈ tree_locs prev \/ l ∈ links_locs links \/ a <= l.
Proof.
  induction links as [|lk links IH]; intros [|uid names] a prev l;
    try (left; assumption).
  rewrite walk_guard_tree, links_walk_cons.
  rewrite !elem_of_cons, !elem_of_app, !elem_of_cons, elem_of_app.
  intros [->|[->|[->|[->|[Hp|[->|[Hr|Hr]]]]]]]; try (right; right; lia).
  - left. exact Hp.
  - apply IH in Hr. rewrite walk_next, !elem_of_cons in Hr.
    destruct Hr as [[->|[->|Hr]]|[Hr|Hr]]; try (right; right; lia).
    + right. left. left. exact Hr.
    + right. left. right. exact Hr.
  - apply list_elem_of_singleton in Hr as ->. right. right. lia.
Qed.

(** No location is twice in the guard tree, when none is twice in the base
    and in what the links carry. *)
Lemma guard_tree_locs_NoDup links : forall names a prev,
  NoDup (tree_locs prev ++ links_locs links) ->
  Forall (fun l => l < a) (tree_locs prev ++ links_locs links) ->
  NoDup (tree_locs (guard_tree a prev links names)).
Proof.
  induction links as [|lk links IH]; intros [|uid names] a prev Hnd Hlt;
    try (apply NoDup_app in Hnd as [Hnd _]; exact Hnd).
  rewrite links_walk_cons in Hnd, Hlt.
  set (rest := guard_tree (a + 8)
                 (Node (a + 1) (next_value (Node a (Identifier uid)) lk))
                 links names).
  assert (Hlt' : forall l,
    l ∈ tree_locs prev \/ l ∈ forest_locs (link_children lk)
    \/ l ∈ links_locs links -> l < a).
  { rewrite Forall_forall in Hlt. intros l Hl. apply Hlt.
    rewrite !elem_of_app. tauto. }
  assert (Hrest : forall l, l ∈ tree_locs rest ->
    l = a + 1 \/ l = a \/ l ∈ forest_locs (link_children lk)
    \/ l ∈ links_locs links \/ a + 8 <= l).
  { intros l Hl. apply guard_tree_locs_bound in Hl.
    rewrite walk_next, !elem_of_cons in Hl. tauto. }
  assert (Hnd_rest : NoDup (tree_locs rest)).
  { apply IH.
    - rewrite walk_next. apply NoDup_app in Hnd as (_ & _ & Hnd).
      rewrite <- !app_comm_cons, !NoDup_cons, !elem_of_cons, !elem_of_app.
      repeat split; [| |exact Hnd].
      + intros [?|[Hl|Hl]]; [lia| |];
          (assert (a + 1 < a) by (apply Hlt'; tauto); lia).
      + intros [Hl|Hl]; (assert (a < a) by (apply Hlt'; tauto); lia).
    - rewrite walk_next, <- !app_comm_cons.
      repeat (apply Forall_cons; split; [lia|]).
      apply Forall_forall. intros l Hl. apply elem_of_app in Hl.
      assert (l < a) by (apply Hlt'; tauto). lia. }
  assert (Hnd_prev : NoDup (tree_locs prev))
    by (apply NoDup_app in Hnd as [Hnd _]; exact Hnd).
  assert (Hdisj : forall l, l ∈ tree_locs prev -> l ∉ tree_locs rest).
  { intros l Hp Hr. apply NoDup_app in Hnd as (_ & Hd & _).
    pose proof (Hlt' l (or_introl Hp)).
    destruct (Hrest l Hr) as [?|[?|[Hl|[Hl|?]]]]; try lia;
      apply (Hd l Hp); apply elem_of_app; tauto. }
  rewrite walk_guard_tree. fold rest.
  assert (Hnew : forall k, 2 <= k < 8 ->
    (a + k ∉ tree_locs prev) /\ (a + k ∉ tree_locs rest)).
  { intros k Hk. split.
    - intros Hl. pose proof (Hlt' _ (or_introl Hl)). lia.
    - intros Hl. destruct (Hrest _ Hl) as [?|[?|[Hl'|[Hl'|?]]]]; try lia;
        (assert (a + k < a) by (apply Hlt'; tauto); lia). }
  destruct (Hnew 2 ltac:(lia)) as [? ?]. destruct (Hnew 3 ltac:(lia)) as [? ?].
  destruct (Hnew 4 ltac:(lia)) as [? ?]. destruct (Hnew 5 ltac:(lia)) as [? ?].
  destruct (Hnew 6 ltac:(lia)) as [? ?]. destruct (Hnew 7 ltac:(lia)) as [? ?].
  repeat (rewrite ?NoDup_cons, ?NoDup_app, ?elem_of_cons, ?elem_of_app,
            ?list_elem_of_singleton).
  repeat split; try apply NoDup_nil_2; try assumption;
    try (intros ?; intuition lia).
  - intros x Hx. rewrite elem_of_cons, elem_of_app, list_elem_of_singleton.
    intros [->|[Hr| ->]]; try tauto. exact (Hdisj _ Hx Hr).
  - intros x Hx. rewrite list_elem_of_singleton. intros ->. tauto.
  - apply not_elem_of_nil.
Qed.

(** ** The contract of the name generator *)


(** The generator [listUid] keeps the contract. *)






(** ** The guards in the store *)

(** The eight cells of link [k] among the cells of the guards. *)
Lemma guard_cells_block links : forall names a prev k lk uid j cell,
  length names = length links ->
  links !! k = Some lk -> names !! k = Some uid ->
  guard_block (a + 8 * k) (previous_value a prev k) lk uid
    (consequent_of a (length links) k) !! j = Some cell ->
  guard_cells a prev links names !! (8 * k + j) = Some cell.
Proof.
  induction links as [|lk0 links IH];
    intros [|u names] a prev k lk uid j cell Hlen Hlk Hu Hj;
    try discriminate.
  injection Hlen as Hlen. cbn [guard_cells].
  assert (Hlt : j < 8).
  { apply lookup_lt_Some in Hj. exact Hj. }
  destruct k as [|k].
  - injection Hlk as ->. injection Hu as ->.
    rewrite lookup_app_l by (simpl; lia).
    replace (8 * 0 + j) with j by lia.
    replace (a + 8 * 0) with a in Hj by lia.
    replace (guard_root (a + 8) (a + 1) links)
      with (consequent_of a (length (lk :: links)) 0); [exact Hj|].
    unfold consequent_of. destruct links; simpl; lia.
  - rewrite lookup_app_r by (simpl; lia). simpl length.
    replace (8 * S k + j - 8) with (8 * k + j) by lia.
    apply (IH names (a + 8) (a + 1) k lk uid j cell Hlen Hlk Hu).
    replace (a + 8 + 8 * k) with (a + 8 * S k) by lia.
    replace (previous_value (a + 8) (a + 1) k)
      with (previous_value a prev (S k)) by (destruct k; simpl; lia).
    replace (consequent_of (a + 8) (length links) k)
      with (consequent_of a (length (lk0 :: links)) (S k)); [exact Hj|].
    unfold consequent_of. cbn [length].
    destruct (Nat.ltb_spec (S (S k)) (S (length links)));
      destruct (Nat.ltb_spec (S k) (length links)); lia.
Qed.

(** The conditionals among the cells of the guards are the last of the
    eight cells of each link. *)
Lemma guard_cells_conditional links :
  forall names a prev i test consequent alternate,
  guard_cells a prev links names !! i
    = Some (ConditionalExpression test consequent alternate) ->
  exists k, i = 8 * k + 7 /\ k < length links /\ k < length names.
Proof.
  induction links as [|lk links IH];
    intros [|uid names] a prev i test consequent alternate Hi;
    try discriminate.
  cbn [guard_cells] in Hi.
  destruct (Nat.lt_ge_cases i 8) as [Hlt|Hge].
  - rewrite lookup_app_l in Hi by (simpl; lia).
    destruct i as [|[|[|[|[|[|[|[|i]]]]]]]]; try discriminate Hi; try lia.
    + destruct lk; discriminate Hi.
    + exists 0. simpl. lia.
  - rewrite lookup_app_r in Hi by (simpl; lia). simpl length in Hi.
    destruct (IH _ _ _ _ _ _ _ Hi) as (k & Hk & Hl & Hn).
    exists (S k). simpl. lia.
Qed.

(** The guard of link [k], in a store that holds the cells of the guards
    from [a] on. *)
Lemma guard_cells_guard (h : store) links names a prev k lk uid :
  length names = length links ->
  (forall j c, guard_cells a prev links names !! j = Some c ->
     h !! (a + j) = Some c) ->
  links !! k = Some lk -> names !! k = Some uid ->
  is_guard h (a + 8 * k + 7) uid (previous_value a prev k)
    (consequent_of a (length links) k)
  /\ h !! (a + 8 * k) = Some (Identifier uid)
  /\ h !! (a + 8 * k + 1) = Some (next_value (a + 8 * k) lk).
Proof.
  intros Hlen Hcells Hlk Hu.
  assert (Hb : forall j c,
    guard_block (a + 8 * k) (previous_value a prev k) lk uid
      (consequent_of a (length links) k) !! j = Some c ->
    h !! (a + 8 * k + j) = Some c).
  { intros j c Hj. replace (a + 8 * k + j) with (a + (8 * k + j)) by lia.
    apply Hcells. eapply guard_cells_block; eassumption. }
  split; [|split].
  - exists (a + 8 * k + 5), (a + 8 * k + 6), (a + 8 * k + 3),
      (a + 8 * k + 4), (a + 8 * k + 2).
    repeat split; apply Hb; reflexivity.
  - replace (a + 8 * k) with (a + 8 * k + 0) at 1 by lia.
    apply Hb. reflexivity.
  - apply Hb. reflexivity.
Qed.

Lemma guard_cells_operator links : forall names a prev i operator lhs rhs,
  guard_cells a prev links names !! i
    = Some (BinaryExpression operator lhs rhs) ->
  operator = "!=".
Proof.
  induction links as [|lk links IH]; intros [|uid names] a prev i op lhs rhs;
    try discriminate.
  cbn [guard_cells]. intros Hi.
  destruct (Nat.lt_ge_cases i 8) as [Hlt|Hge].
  - rewrite lookup_app_l in Hi by (simpl; lia).
    destruct i as [|[|[|[|[|[|[|[|i]]]]]]]]; try discriminate Hi; try lia.
    + destruct lk; discriminate Hi.
    + injection Hi as <- _ _. reflexivity.
  - rewrite lookup_app_r in Hi by (simpl; lia). eapply IH. exact Hi.
Qed.

(** ** Units without a call of the trigger *)

Lemma subtrees_Node l n :
  subtrees (Node l n)
  = Node l n :: concat (List.map subtrees (node_children n)).
Proof. simpl. rewrite node_children_map. reflexivity. Qed.

Lemma isIdxCall_tree fuel (h : store) l t :
  reify fuel h l = Some t -> isIdxCall h l = is_trigger_call t.
Proof.
  intros Hr. unfold isIdxCall, is_trigger_call.
  rewrite (reify_lookup _ _ _ _ Hr).
  pose proof (reify_children _ _ _ _ Hr) as Hc.
  destruct (node_of t); try reflexivity. simpl in *.
  apply Forall_cons in Hc as [Hc _]. rewrite (reify_lookup _ _ _ _ Hc).
  destruct callee as [lc []]; reflexivity.
Qed.

Section NoCall.

Context {G : Type} `{!UidGenerator G}.

Lemma for_each_skip (f : nat -> M G unit) (s : State G) ks :
  Forall (fun k => f k s = (Return tt, s)) ks ->
  for_each ks f s = (Return tt, s).
Proof.
  induction 1 as [|k ks Hk _ IH]; [reflexivity|].
  simpl. unfold bind. rewrite Hk. exact IH.
Qed.

(** The visitor leaves a node that is not a call of the trigger as it is. *)
Lemma visit_other fuel path (s : State G) node :
  path_node path s = (Return node, s) ->
  isIdxCall (nodes s) node = false ->
  CallExpression_visitor fuel path s = (Return tt, s).
Proof.
  intros Hp Hi. unfold CallExpression_visitor, bind at 1. rewrite Hp.
  unfold bind, reading. rewrite Hi. reflexivity.
Qed.

Lemma path_node_child (s : State G) c n k l :
  nodes s !! c = Some n -> node_children n !! k = Some l ->
  path_node {| container := c; key := k |} s = (Return l, s).
Proof.
  intros Hc Hk. unfold path_node, bind, read. simpl. rewrite Hc, Hk.
  reflexivity.
Qed.

Lemma children_skip (f : nat -> M G unit) (s : State G) (ts : list tree) :
  (forall k c, ts !! k = Some c -> f k s = (Return tt, s)) ->
  for_each (seq 0 (length ts)) f s = (Return tt, s).
Proof.
  intros Hf. apply for_each_skip, Forall_forall. intros k Hk.
  apply elem_of_seq in Hk.
  destruct (lookup_lt_is_Some_2 ts k) as [c Hc]; [lia|]. eauto.
Qed.

(** The walk over a tree without a call of the trigger changes nothing. *)
Lemma traverse_skip fuel' (s : State G) : forall fuel path node t,
  path_node path s = (Return node, s) ->
  reify fuel (nodes s) node = Some t ->
  Forall (fun c => is_trigger_call c = false) (subtrees t) ->
  traverse fuel (CallExpression_visitor fuel') path s = (Return tt, s).
Proof.
  induction fuel as [|fuel IH]; intros path node t Hp Hr Hno; [discriminate|].
  destruct (reify_inv _ _ _ _ Hr) as (f & [= <-] & Hroot & Hn & Hc).
  destruct t as [l n]. simpl in Hroot, Hn, Hc. subst l.
  rewrite subtrees_Node in Hno. apply Forall_cons in Hno as [Hhere Hno].
  cbn [traverse]. unfold bind at 1.
  rewrite (visit_other _ _ _ _ Hp)
    by (rewrite (isIdxCall_tree _ _ _ _ Hr); exact Hhere).
  unfold bind at 1. rewrite Hp. unfold bind at 1, read. rewrite Hn.
  rewrite node_children_map, length_map.
  apply children_skip. intros k c Hk.
  apply (IH _ (root c) c).
  - eapply path_node_child; [exact Hn|].
    rewrite node_children_map.
    change (List.map root (node_children n)) with (root <$> node_children n).
    rewrite list_lookup_fmap, Hk. reflexivity.
  - rewrite Forall_forall in Hc. apply Hc. eapply list_elem_of_lookup_2, Hk.
  - rewrite Forall_forall in Hno |- *. intros c' Hc'. apply Hno.
    apply list_elem_of_In, in_concat. exists (subtrees c). split.
    + apply in_map, list_elem_of_In. eapply list_elem_of_lookup_2, Hk.
    + apply list_elem_of_In, Hc'.
Qed.

End NoCall.

(** ** The pre-filter *)

(** [idx] between two word boundaries is a match of the regular
    expression, wherever in the text it is. *)
Lemma idxRe_from_word before after : forall after_word,
  ends_outside_word after_word before = true ->
  starts_outside_word after = true ->
  idxRe_from after_word (String.append before (String.append "idx" after))
  = true.
Proof.
  change (String.append "idx" after)
    with (String "i" (String "d" (String "x" after))).
  induction before as [|c before IH]; intros after_word Hb Ha.
  - simpl in Hb. apply negb_true_iff in Hb. subst after_word.
    destruct after; simpl in *; [reflexivity|]. rewrite Ha. reflexivity.
  - simpl in Hb.
    change (idxRe_from after_word (String c before +:+ ?s))
      with (negb after_word && idx_here (String c (before +:+ s))
            || idxRe_from (is_word_char c) (before +:+ s)).
    rewrite (IH _ Hb Ha). apply orb_true_r.
Qed.

(** ** Examples *)

Example scenario_A_runs :
  (CallExpression_visitor 10 statement_path scenario_A).1 = Return tt.
Proof. reflexivity. Qed.

(** ** The validator *)

(** C5.  On the call at [call], whose tree is [t], the validator raises the
    error of the first condition that fails, in the order: two arguments
    (arity error); the second is an arrow function, its body is an
    expression, it has one parameter (shape errors, with these three
    sub-reasons in this order); the parameter is the root of the body
    (parameter mismatch).  When all hold it returns. *)
Theorem validation_order fuel (h : store) call t :
  reify fuel h call = Some t ->
  isCallExpression h call = true ->
  (has_two_arguments t = false ->
   exists e, checkIdxArguments fuel h call = Throw e
             /\ error_kind e = Some ArityError)
  /\ (has_two_arguments t = true -> second_is_lambda t = false ->
      exists e, checkIdxArguments fuel h call = Throw e
                /\ error_kind e = Some (ShapeError NotALambda))
  /\ (has_two_arguments t = true -> second_is_lambda t = true ->
      body_is_expression t = false ->
      exists e, checkIdxArguments fuel h call = Throw e
                /\ error_kind e = Some (ShapeError BlockBody))
  /\ (has_two_arguments t = true -> second_is_lambda t = true ->
      body_is_expression t = true -> has_one_parameter t = false ->
      exists e, checkIdxArguments fuel h call = Throw e
                /\ error_kind e = Some (ShapeError WrongParameterCount))
  /\ (has_two_arguments t = true -> second_is_lambda t = true ->
      body_is_expression t = true -> has_one_parameter t = true ->
      parameter_matches t = false ->
      exists e, checkIdxArguments fuel h call = Throw e
                /\ error_kind e = Some ParameterMismatchError)
  /\ (has_two_arguments t = true -> second_is_lambda t = true ->
      body_is_expression t = true -> has_one_parameter t = true ->
      parameter_matches t = true ->
      checkIdxArguments fuel h call = Return tt).
Proof.
  intros Hr Hcall. rewrite (checkIdxArguments_validate _ _ _ _ Hr Hcall).
  unfold isCallExpression in Hcall. rewrite (reify_lookup _ _ _ _ Hr) in Hcall.
  unfold validate, has_two_arguments, second_is_lambda, body_is_expression,
    has_one_parameter, parameter_matches, lambda_of, arguments_of.
  destruct (node_of t) as [| | |callee args| | | | |]; try discriminate.
  destruct args as [|b [|[la arrow] [|c args]]]; simpl;
    repeat split; intros; try discriminate; eauto.
  all: destruct arrow as [| | | |params body| | | |]; simpl in *;
    try discriminate; eauto.
  all: destruct (is_expression (node_of body)); simpl in *;
    try discriminate; eauto.
  all: destruct params as [|param [|p2 params]]; simpl in *;
    try discriminate; eauto.
  all: destruct (node_of param), (node_of (chain_of body).1);
    try discriminate; eauto.
  all: destruct (String.eqb _ _); try discriminate; eauto.
Qed.

Lemma validation_order_witness :
  reify 10 (nodes scenario_A) 3 = Some (tree_at scenario_A 3)
  /\ isCallExpression (nodes scenario_A) 3 = true
  /\ checkIdxArguments 10 (nodes scenario_A) 3 = Return tt.
Proof.
  assert (H1 : reify 10 (nodes scenario_A) 3 = Some (tree_at scenario_A 3))
    by reflexivity.
  assert (H2 : isCallExpression (nodes scenario_A) 3 = true) by reflexivity.
  split; [exact H1|]. split; [exact H2|].
  apply (validation_order 10 _ 3 _ H1 H2); reflexivity.
Defined.

(** The scenarios C, D and E of the spec. *)
Example arity_violation :
  checkIdxArguments 10 (nodes scenario_C) 3
  = Throw {| error_node := 3; message := arity_message |}.
Proof. reflexivity. Qed.

Example parameter_differs :
  checkIdxArguments 10 (nodes scenario_D) 3
  = Throw {| error_node := 7; message := match_message |}.
Proof. reflexivity. Qed.

Example block_body :
  checkIdxArguments 10
    (unit_of [ CallExpression 4 [5; 6]; Identifier "idx"; Identifier "a";
               ArrowFunctionExpression [7] 8; Identifier "x";
               OtherNode "BlockStatement" false [] ]) 3
  = Throw {| error_node := 8; message := body_message |}.
Proof. reflexivity. Qed.

(** C10.  When the call has two arguments and the second is an arrow
    function with an expression for a body and one parameter, and the
    parameter is not an identifier or the root of the body is not one, the
    validator raises the parameter-mismatch error. *)
Theorem mismatch_without_identifier fuel (h : store) call t :
  reify fuel h call = Some t ->
  isCallExpression h call = true ->
  has_two_arguments t = true ->
  second_is_lambda t = true ->
  body_is_expression t = true ->
  has_one_parameter t = true ->
  parameter_is_identifier t = false \/ root_is_identifier t = false ->
  exists e, checkIdxArguments fuel h call = Throw e
            /\ message e = match_message
            /\ error_kind e = Some ParameterMismatchError.
Proof.
  intros Hr Hcall. rewrite (checkIdxArguments_validate _ _ _ _ Hr Hcall).
  unfold isCallExpression in Hcall. rewrite (reify_lookup _ _ _ _ Hr) in Hcall.
  unfold validate, has_two_arguments, second_is_lambda, body_is_expression,
    has_one_parameter, parameter_is_identifier, root_is_identifier,
    lambda_of, arguments_of.
  destruct (node_of t) as [| | |callee args| | | | |]; try discriminate.
  destruct args as [|b [|[la arrow] [|c args]]]; simpl; try discriminate.
  destruct arrow as [| | | |params body| | | |]; simpl;
    try (intros; discriminate).
  intros _ _ Hbody Hone Hid. rewrite Hbody. simpl.
  destruct params as [|param [|p2 params]]; try discriminate.
  destruct (node_of param), (node_of (chain_of body).1); simpl in Hid;
    try (destruct Hid; discriminate); eauto.
Qed.

Lemma mismatch_without_identifier_witness :
  reify 10 (nodes pattern_parameter) 3 = Some (tree_at pattern_parameter 3)
  /\ isCallExpression (nodes pattern_parameter) 3 = true
  /\ has_two_arguments (tree_at pattern_parameter 3) = true
  /\ second_is_lambda (tree_at pattern_parameter 3) = true
  /\ body_is_expression (tree_at pattern_parameter 3) = true
  /\ has_one_parameter (tree_at pattern_parameter 3) = true
  /\ parameter_is_identifier (tree_at pattern_parameter 3) = false
  /\ exists e, checkIdxArguments 10 (nodes pattern_parameter) 3 = Throw e
               /\ message e = match_message
               /\ error_kind e = Some ParameterMismatchError.
Proof.
  repeat (split; [reflexivity|]).
  apply (mismatch_without_identifier 10 _ 3 (tree_at pattern_parameter 3));
    try reflexivity.
  left. reflexivity.
Defined.

(** C6.  When validation fails on a call of [idx], the visitor raises the
    error of the validator and the state is the one it was called in: no
    node is replaced or built, no name minted, no binding declared. *)
Theorem failed_validation_changes_nothing {G : Type} `{!UidGenerator G}
    fuel path (s : State G) node e :
  path_node path s = (Return node, s) ->
  isIdxCall (nodes s) node = true ->
  checkIdxArguments fuel (nodes s) node = Throw e ->
  CallExpression_visitor fuel path s = (Throw e, s).
Proof.
  intros Hp Hi He. unfold CallExpression_visitor, bind at 1. rewrite Hp.
  unfold bind at 1, reading at 1. rewrite Hi.
  unfold bind at 1, reading at 1. rewrite He. reflexivity.
Qed.

Lemma failed_validation_changes_nothing_witness :
  path_node statement_path scenario_C = (Return 3, scenario_C)
  /\ isIdxCall (nodes scenario_C) 3 = true
  /\ checkIdxArguments 10 (nodes scenario_C) 3
     = Throw {| error_node := 3; message := arity_message |}
  /\ CallExpression_visitor 10 statement_path scenario_C
     = (Throw {| error_node := 3; message := arity_message |}, scenario_C).
Proof.
  repeat (split; [reflexivity|]).
  apply (failed_validation_changes_nothing 10 statement_path scenario_C 3);
    reflexivity.
Defined.

(** ** The visit of a call site *)

Section Sites.

Context {G : Type} `{!UidGenerator G}.

Lemma site_checks fuel path (s : State G) t base x body :
  call_site s path fuel t base x body ->
  isIdxCall (nodes s) (root t) = true
  /\ checkIdxArguments fuel (nodes s) (root t) = Return tt.
Proof.
  intros [_ Hr Hi Hx _].
  rewrite (isIdxCall_tree _ _ _ _ Hr).
  assert (Hcall : isCallExpression (nodes s) (root t) = true).
  { unfold isCallExpression. rewrite (reify_lookup _ _ _ _ Hr).
    destruct Hi as (? & ? & ? & ->). reflexivity. }
  rewrite (checkIdxArguments_validate _ _ _ _ Hr Hcall).
  destruct Hi as (callee & arrow & param & Ht).
  unfold is_trigger_call, validate. rewrite Ht. simpl.
  rewrite (chain_of_expression _ _ Hx), Hx. simpl.
  rewrite String.eqb_refl. split; reflexivity.
Qed.

(** What the visit of a call site does: the cells of the guards and an
    identifier for each temporary are added to the store, the child of the
    container at the path becomes the root of the guards, each temporary is
    declared, and the store holds the guard tree at that root. *)
Lemma site_visit fuel path (s : State G) t base x body :
  call_site s path fuel t base x body ->
  exists c s' result,
    nodes s !! container path = Some c
    /\ CallExpression_visitor fuel path s = (Return tt, s')
    /\ result = guard_root (length (nodes s)) (root base)
                  (List.map (link_map root) (chain_of body).2)
    /\ nodes s'
       = <[container path := set_child (key path) result c]> (nodes s)
         ++ guard_cells (length (nodes s)) (root base)
              (List.map (link_map root) (chain_of body).2)
              (mint (length (chain_of body).2) (uidState s)).1
         ++ List.map Identifier
              (mint (length (chain_of body).2) (uidState s)).1
    /\ uidState s' = (mint (length (chain_of body).2) (uidState s)).2
    /\ declarations s'
       = declarations s
         ++ seq (length (nodes s) + 8 * length (chain_of body).2)
              (length (chain_of body).2)
    /\ path_node path s' = (Return result, s')
    /\ reads (nodes s') result
         (guard_tree (length (nodes s)) base (chain_of body).2
            (mint (length (chain_of body).2) (uidState s)).1).
Proof.
  intros [(c & Hc & Hk) Hr Hi Hx Hout].
  destruct (visit_reads _ _ _ _ _ _ _ _ _ Hc Hk Hr Hi Hx Hout)
    as (s' & result & Hv & Hp & Hreads).
  pose proof (visit_store _ _ _ _ _ _ _ _ _ Hc Hk Hr Hi Hx) as Hs.
  cbn zeta in Hs. rewrite length_map in Hs.
  destruct (mint (length (chain_of body).2) (uidState s)) as [names g].
  pose proof (f_equal snd (eq_trans (eq_sym Hv) Hs)) as Hs'.
  cbn [fst snd] in *. subst s'. clear Hs.
  cbn [nodes uidState declarations] in *.
  assert (Hres : result = guard_root (length (nodes s)) (root base)
                          (List.map (link_map root) (chain_of body).2)).
  { unfold path_node, bind, read in Hp. cbn [nodes] in Hp.
    rewrite lookup_app_l in Hp
      by (rewrite length_insert; eapply lookup_lt_Some; eauto).
    rewrite list_lookup_insert_eq in Hp by (eapply lookup_lt_Some; eauto).
    rewrite (set_child_lookup _ _ _ _ Hk) in Hp. injection Hp as <-.
    reflexivity. }
  subst result.
  eexists c, _, _. split; [exact Hc|]. split; [exact Hv|].
  split; [reflexivity|]. split; [reflexivity|]. split; [reflexivity|].
  split; [reflexivity|]. split; [exact Hp|exact Hreads].
Qed.

End Sites.

(** ** The built expressions *)

(** The nodes of the base and of what the links carry were in the store
    before the visit. *)
Lemma site_old_locs {G : Type} (s : State G) path fuel t base x body :
  call_site s path fuel t base x body ->
  Forall (fun l => l < length (nodes s))
    (tree_locs base ++ links_locs (chain_of body).2).
Proof.
  intros Hsite.
  pose proof (reify_lt _ _ _ _ (site_tree _ _ _ _ _ _ _ Hsite)) as Ht.
  rewrite Forall_forall in Ht |- *. intros l Hl. apply Ht.
  eapply elem_of_sublist; [exact Hl|].
  etransitivity;
    [|exact (idx_call_walk (fun l _ => l) _ _ _ _
               (site_call _ _ _ _ _ _ _ Hsite))].
  apply sublist_app; [reflexivity|]. apply links_walk_sublist.
Qed.

(** C1.  The call [idx(a, x => x.b.c)], wherever its nodes are in the
    store, is replaced by
    [(t1 = a) != null ? ((t2 = t1.b) != null ? t2.c : t2) : t1], where [t1]
    and [t2] are the two names the generator returns. *)
Theorem two_property_chain {G : Type} `{!UidGenerator G} fuel path
    (s : State G) t la lc lb lx lpb lpc :
  call_site s path fuel t (Node la (Identifier "a")) "x"
    (Node lc
       (MemberExpression
          (Node lb
             (MemberExpression (Node lx (Identifier "x"))
                (Node lpb (Identifier "b")) false))
          (Node lpc (Identifier "c")) false)) ->
  exists s' result built t1 t2,
    CallExpression_visitor fuel path s = (Return tt, s')
    /\ (mint 2 (uidState s)).1 = [t1; t2]
    /\ path_node path s' = (Return result, s')
    /\ reads (nodes s') result built
    /\ erase built
       = e_conditional
           (e_not_null (e_assign (e_identifier t1) (e_identifier "a")))
           (e_conditional
              (e_not_null
                 (e_assign (e_identifier t2)
                    (e_member (e_identifier t1) (e_identifier "b"))))
              (e_member (e_identifier t2) (e_identifier "c"))
              (e_identifier t2))
           (e_identifier t1).
Proof.
  intros Hsite.
  destruct (site_visit _ _ _ _ _ _ _ Hsite)
    as (c & s' & result & _ & Hv & _ & _ & _ & _ & Hp & Hreads).
  cbn [chain_of fst snd app length] in Hreads.
  cbn [mint].
  destruct (mint 2 (uidState s)) as [names g] eqn:Hm. cbn [mint] in Hm.
  destruct (generateUid "ref" (uidState s)) as [t1 g1].
  destruct (generateUid "ref" g1) as [t2 g2]. injection Hm as <- <-.
  cbn [fst] in Hreads.
  eexists s', result, _, t1, t2.
  split; [exact Hv|]. split; [reflexivity|]. split; [exact Hp|].
  split; [exact Hreads|]. reflexivity.
Qed.

Lemma two_property_chain_witness :
  call_site scenario_A statement_path 10 (tree_at scenario_A 3)
    (Node 5 (Identifier "a")) "x"
    (Node 8
       (MemberExpression
          (Node 9
             (MemberExpression (Node 11 (Identifier "x"))
                (Node 12 (Identifier "b")) false))
          (Node 10 (Identifier "c")) false))
  /\ exists s' result built t1 t2,
       CallExpression_visitor 10 statement_path scenario_A = (Return tt, s')
       /\ (mint 2 (uidState scenario_A)).1 = [t1; t2]
       /\ path_node statement_path s' = (Return result, s')
       /\ reads (nodes s') result built
       /\ erase built
          = e_conditional
              (e_not_null (e_assign (e_identifier t1) (e_identifier "a")))
              (e_conditional
                 (e_not_null
                    (e_assign (e_identifier t2)
                       (e_member (e_identifier t1) (e_identifier "b"))))
                 (e_member (e_identifier t2) (e_identifier "c"))
                 (e_identifier t2))
              (e_identifier t1).
Proof.
  assert (Hsite : call_site scenario_A statement_path 10
            (tree_at scenario_A 3) (Node 5 (Identifier "a")) "x"
            (Node 8
               (MemberExpression
                  (Node 9
                     (MemberExpression (Node 11 (Identifier "x"))
                        (Node 12 (Identifier "b")) false))
                  (Node 10 (Identifier "c")) false)))
    by solve_site.
  split; [exact Hsite|].
  exact (two_property_chain 10 statement_path scenario_A _ 5 8 9 11 12 10
           Hsite).
Defined.

(** With Babel's names the expression of scenario A is
    [(_ref = a) != null ? ((_ref2 = _ref.b) != null ? _ref2.c : _ref2)
     : _ref]. *)
Example scenario_A_expression :
  erase <$> reify 10
    (nodes (CallExpression_visitor 10 statement_path scenario_A).2) 20
  = Some
      (e_conditional
         (e_not_null (e_assign (e_identifier "_ref") (e_identifier "a")))
         (e_conditional
            (e_not_null
               (e_assign (e_identifier "_ref2")
                  (e_member (e_identifier "_ref") (e_identifier "b"))))
            (e_member (e_identifier "_ref2") (e_identifier "c"))
            (e_identifier "_ref2"))
         (e_identifier "_ref")).
Proof. vm_compute. reflexivity. Qed.

(** C9.  On [idx(base, x => x)], a chain without a link, validation
    succeeds and the visitor puts the first argument itself in the place of
    the call: no node is built, no name minted, no binding declared. *)
Theorem no_link_is_the_base {G : Type} `{!UidGenerator G} fuel path
    (s : State G) t base x lx :
  call_site s path fuel t base x (Node lx (Identifier x)) ->
  checkIdxArguments fuel (nodes s) (root t) = Return tt
  /\ exists c s',
       nodes s !! container path = Some c
       /\ CallExpression_visitor fuel path s = (Return tt, s')
       /\ nodes s'
          = <[container path := set_child (key path) (root base) c]> (nodes s)
       /\ uidState s' = uidState s
       /\ declarations s' = declarations s
       /\ path_node path s' = (Return (root base), s').
Proof.
  intros Hsite. split; [exact (proj2 (site_checks _ _ _ _ _ _ _ Hsite))|].
  destruct (site_visit _ _ _ _ _ _ _ Hsite)
    as (c & s' & result & Hc & Hv & -> & Hn & Hg & Hd & Hp & _).
  cbn [chain_of fst snd length mint List.map guard_cells guard_root app]
    in Hn, Hg, Hd, Hp.
  rewrite app_nil_r in Hn, Hd.
  exists c, s'. repeat split; assumption.
Qed.

Lemma no_link_is_the_base_witness :
  call_site no_link statement_path 10 (tree_at no_link 3)
    (Node 5 (Identifier "a")) "x" (Node 8 (Identifier "x"))
  /\ checkIdxArguments 10 (nodes no_link) 3 = Return tt
  /\ exists c s',
       nodes no_link !! 2 = Some c
       /\ CallExpression_visitor 10 statement_path no_link = (Return tt, s')
       /\ nodes s' = <[2 := set_child 0 5 c]> (nodes no_link)
       /\ uidState s' = uidState no_link
       /\ declarations s' = declarations no_link
       /\ path_node statement_path s' = (Return 5, s').
Proof.
  assert (Hsite : call_site no_link statement_path 10 (tree_at no_link 3)
            (Node 5 (Identifier "a")) "x" (Node 8 (Identifier "x")))
    by solve_site.
  split; [exact Hsite|].
  exact (no_link_is_the_base 10 statement_path no_link _ _ "x" 8 Hsite).
Defined.

(** ** Guards and temporaries *)








Lemma scenario_A_site :
  call_site scenario_A statement_path 10 (tree_at scenario_A 3)
    scenario_A_base "x" scenario_A_body.
Proof. solve_site. Qed.



(** A property named like a temporary.  In [idx(a, x => x._ref)], where no
    binding is named [_ref], the generator returns [_ref], and the name
    labels four nodes of [(_ref = a) != null ? _ref._ref : _ref]: the three
    the visit built (13, 11 and 17) and the property (10). *)
Example property_named_like_a_temporary :
  exists s' built,
    CallExpression_visitor 10 statement_path property_like_a_temporary
    = (Return tt, s')
    /\ (mint 1 (uidState property_like_a_temporary)).1 = ["_ref"]
    /\ reify 10 (nodes s') 18 = Some built
    /\ built_occurrences 11 "_ref" built = [13; 11; 17]
    /\ count_nodes (is_identifier_named "_ref") built = 4.
Proof.
  eexists
    (CallExpression_visitor 10 statement_path property_like_a_temporary).2,
    _.
  split; [vm_compute; reflexivity|]. split; [vm_compute; reflexivity|].
  split; [vm_compute; reflexivity|]. split; vm_compute; reflexivity.
Qed.

(** ** The order of evaluation *)

Lemma evaluated_old a nullish (ts : list tree) :
  Forall (fun c => root c < a) ts ->
  concat (List.map (evaluated a nullish) ts) = List.map root ts.
Proof.
  induction 1 as [|[l n] ts Hl _ IH]; [reflexivity|].
  simpl in *. apply Nat.ltb_lt in Hl. rewrite Hl, IH. reflexivity.
Qed.

Lemma roots_sublist (ts : list tree) :
  List.map root ts `sublist_of` forest_locs ts.
Proof.
  induction ts as [|[l n] ts IH]; [constructor|].
  unfold forest. cbn [List.map concat]. rewrite walk_Node.
  cbn [root app]. apply sublist_skip, sublist_inserts_l, IH.
Qed.

Lemma links_roots_sublist (links : list (link tree)) :
  links_roots links `sublist_of` links_locs links.
Proof.
  induction links as [|lk links IH]; [constructor|].
  unfold links_roots, links_walk. cbn [List.map concat].
  apply sublist_app; [apply roots_sublist|exact IH].
Qed.

(** Evaluating the guards evaluates the previous value and then what the
    links carry, up to the first guard that finds [null]. *)
Lemma evaluated_guard_tree a nullish links : forall names a' prev,
  length names = length links ->
  a <= a' ->
  Forall (fun lk => Forall (fun c => root c < a) (link_children lk)) links ->
  evaluated a nullish (guard_tree a' prev links names)
  = evaluated a nullish prev
    ++ links_roots (take (passed nullish a' (length links)) links).
Proof.
  induction links as [|lk links IH]; intros [|uid names] a' prev Hlen Ha Hl;
    try discriminate.
  - simpl. rewrite app_nil_r. reflexivity.
  - injection Hlen as Hlen. apply Forall_cons in Hl as [Hlk Hl].
    pose proof (IH names (a' + 8)
                  (Node (a' + 1) (next_value (Node a' (Identifier uid)) lk))
                  Hlen ltac:(lia) Hl) as Hk.
    assert (Hnew : forall j, (a' + j <? a) = false)
      by (intros j; apply Nat.ltb_ge; lia).
    assert (Hnext : evaluated a nullish
              (Node (a' + 1) (next_value (Node a' (Identifier uid)) lk))
            = List.map root (link_children lk)).
    { cbn [evaluated]. rewrite Hnew.
      assert (H0 : (a' <? a) = false) by (apply Nat.ltb_ge; lia).
      destruct lk; simpl; rewrite H0; simpl.
      - apply Forall_cons in Hlk as [Hp _]. destruct property as [lp np].
        simpl in *. apply Nat.ltb_lt in Hp. rewrite Hp. reflexivity.
      - apply evaluated_old, Hlk. }
    cbn [guard_tree evaluated length passed]. rewrite !Hnew. simpl.
    rewrite !Hnew. simpl. rewrite !app_nil_r.
    destruct (nullish (a' + 7)); [reflexivity|].
    rewrite Hk, Hnext. reflexivity.
Qed.

(** ** The property access, then the call *)

(** C3, as the code has it.  The call [idx(a, x => x.b())], wherever its
    nodes are in the store, is replaced by
    [(t1 = a) != null ? ((t2 = t1.b) != null ? t2() : t2) : t1]: the
    property access is guarded first, and the call is the next link, made on
    the temporary that holds the guarded value.  Evaluating the expression
    evaluates the base, once, and then, when the first guard does not find
    [null], the property access, once. *)
Theorem property_then_call {G : Type} `{!UidGenerator G} fuel path
    (s : State G) t la lc lb lx lpb :
  call_site s path fuel t (Node la (Identifier "a")) "x"
    (Node lc
       (CallExpression
          (Node lb
             (MemberExpression (Node lx (Identifier "x"))
                (Node lpb (Identifier "b")) false))
          [])) ->
  exists s' result built t1 t2,
    CallExpression_visitor fuel path s = (Return tt, s')
    /\ (mint 2 (uidState s)).1 = [t1; t2]
    /\ path_node path s' = (Return result, s')
    /\ reads (nodes s') result built
    /\ erase built
       = e_conditional
           (e_not_null (e_assign (e_identifier t1) (e_identifier "a")))
           (e_conditional
              (e_not_null
                 (e_assign (e_identifier t2)
                    (e_member (e_identifier t1) (e_identifier "b"))))
              (e_call (e_identifier t2) [])
              (e_identifier t2))
           (e_identifier t1)
    /\ forall nullish,
         evaluated (length (nodes s)) nullish built
         = la :: (if nullish (length (nodes s) + 7) then [] else [lpb]).
Proof.
  intros Hsite.
  destruct (site_visit _ _ _ _ _ _ _ Hsite)
    as (c & s' & result & _ & Hv & _ & _ & _ & _ & Hp & Hreads).
  pose proof (site_old_locs _ _ _ _ _ _ _ Hsite) as Hold.
  cbn [chain_of fst snd app length] in Hreads, Hold.
  assert (Hla : la < length (nodes s)).
  { rewrite Forall_forall in Hold. apply Hold. left. }
  assert (Hlpb : lpb < length (nodes s)).
  { rewrite Forall_forall in Hold. apply Hold. right. left. }
  cbn [mint].
  destruct (mint 2 (uidState s)) as [names g] eqn:Hm. cbn [mint] in Hm.
  destruct (generateUid "ref" (uidState s)) as [t1 g1].
  destruct (generateUid "ref" g1) as [t2 g2]. injection Hm as <- <-.
  cbn [fst] in Hreads.
  eexists s', result, _, t1, t2.
  split; [exact Hv|]. split; [reflexivity|]. split; [exact Hp|].
  split; [exact Hreads|]. split; [reflexivity|].
  intros nullish. rewrite evaluated_guard_tree; [|reflexivity|lia|].
  - cbn [evaluated length passed].
    apply Nat.ltb_lt in Hla. rewrite Hla. cbn [app]. f_equal.
    destruct (nullish (length (nodes s) + 7)); [reflexivity|].
    destruct (nullish (length (nodes s) + 8 + 7)); reflexivity.
  - repeat constructor. exact Hlpb.
Qed.

Lemma property_then_call_witness :
  call_site scenario_B statement_path 10 (tree_at scenario_B 3)
    (Node 5 (Identifier "a")) "x"
    (Node 8
       (CallExpression
          (Node 9
             (MemberExpression (Node 10 (Identifier "x"))
                (Node 11 (Identifier "b")) false))
          []))
  /\ exists s' result built t1 t2,
       CallExpression_visitor 10 statement_path scenario_B = (Return tt, s')
       /\ (mint 2 (uidState scenario_B)).1 = [t1; t2]
       /\ path_node statement_path s' = (Return result, s')
       /\ reads (nodes s') result built
       /\ erase built
          = e_conditional
              (e_not_null (e_assign (e_identifier t1) (e_identifier "a")))
              (e_conditional
                 (e_not_null
                    (e_assign (e_identifier t2)
                       (e_member (e_identifier t1) (e_identifier "b"))))
                 (e_call (e_identifier t2) [])
                 (e_identifier t2))
              (e_identifier t1)
       /\ forall nullish,
            evaluated (length (nodes scenario_B)) nullish built
            = 5 :: (if nullish (length (nodes scenario_B) + 7) then []
                    else [11]).
Proof.
  assert (Hsite : call_site scenario_B statement_path 10
            (tree_at scenario_B 3) (Node 5 (Identifier "a")) "x"
            (Node 8
               (CallExpression
                  (Node 9
                     (MemberExpression (Node 10 (Identifier "x"))
                        (Node 11 (Identifier "b")) false))
                  [])))
    by solve_site.
  split; [exact Hsite|].
  exact (property_then_call 10 statement_path scenario_B _ 5 8 9 10 11 Hsite).
Defined.

(** C3 as the spec states it fails: on [idx(a, x => x.b())] the visitor
    builds an expression that is not the one of the spec, whatever the two
    names are taken to be, and the two are not equivalent.  The spec's inner
    test has no assignment, and it reads the property again in both
    branches: when the base is not [null], evaluating the spec's expression
    evaluates the access to [b] (11) twice, whatever its value, and
    evaluating the built expression evaluates it once.  With a property
    whose reading has an effect, or gives another value the second time,
    the two expressions behave differently. *)
Lemma property_then_call_counterexample :
  CallExpression_visitor 10 statement_path scenario_B
  = (Return tt, scenario_B_done)
  /\ path_node statement_path scenario_B_done = (Return 19, scenario_B_done)
  /\ reify 10 (nodes scenario_B_done) 19 = Some scenario_B_built_tree
  /\ erase scenario_B_built_tree = scenario_B_built
  /\ forall t1 t2,
       erase (scenario_B_claimed_tree t1 t2) = scenario_B_claimed t1 t2
       /\ scenario_B_built <> scenario_B_claimed t1 t2
       /\ forall nullish,
            nullish 19 = false ->
            evaluated 12 nullish scenario_B_built_tree = [5; 11]
            /\ evaluated 12 nullish (scenario_B_claimed_tree t1 t2)
               = [5; 11; 11].
Proof.
  split; [vm_compute; reflexivity|]. split; [vm_compute; reflexivity|].
  split; [vm_compute; reflexivity|]. split; [vm_compute; reflexivity|].
  intros t1 t2. split; [reflexivity|]. split; [discriminate|].
  intros nullish H19. unfold scenario_B_built_tree, scenario_B_claimed_tree.
  cbn [evaluated Nat.ltb Nat.leb node_map node_children List.map concat app].
  rewrite H19. destruct (nullish 27); split; reflexivity.
Qed.

(** ** The nodes of the call in the built expression *)

(** C4.  In the expression built for the call [idx(base, x => body)], whose
    tree has no node twice, no node is twice either; the nodes it has of the
    call are those of the base and then those of what each link carries,
    link after link; when there is a link the base is the value assigned in
    the test of the first guard; and evaluating the expression evaluates the
    base, first, and then what the links carry, link after link, up to the
    first guard that finds [null]. *)
Theorem original_nodes_once {G : Type} `{!UidGenerator G} fuel path
    (s : State G) t base x body :
  call_site s path fuel t base x body ->
  NoDup (tree_locs t) ->
  exists s' result built,
    CallExpression_visitor fuel path s = (Return tt, s')
    /\ path_node path s' = (Return result, s')
    /\ reads (nodes s') result built
    /\ NoDup (tree_locs built)
    /\ filter (fun l => l < length (nodes s)) (tree_locs built)
       = tree_locs base ++ links_locs (chain_of body).2
    /\ ((chain_of body).2 <> [] ->
        exists l1 l2 l3 target null consequent alternate,
          built
          = Node l1
              (ConditionalExpression
                 (Node l2
                    (BinaryExpression "!="
                       (Node l3 (AssignmentExpression "=" target base))
                       null))
                 consequent alternate))
    /\ (forall nullish,
          evaluated (length (nodes s)) nullish built
          = root base
            :: links_roots
                 (take (passed nullish (length (nodes s))
                          (length (chain_of body).2))
                    (chain_of body).2))
    /\ NoDup (root base :: links_roots (chain_of body).2).
Proof.
  intros Hsite Hnd.
  destruct (site_visit _ _ _ _ _ _ _ Hsite)
    as (c & s' & result & _ & Hv & _ & _ & _ & _ & Hp & Hreads).
  pose proof (mint_length (length (chain_of body).2) (uidState s)) as Hlen.
  set (names := (mint (length (chain_of body).2) (uidState s)).1) in *.
  pose proof (idx_call_walk (fun l _ => l) _ _ _ _
                (site_call _ _ _ _ _ _ _ Hsite)) as Hsub.
  assert (Hsub' : tree_locs base ++ links_locs (chain_of body).2
                  `sublist_of` tree_locs t).
  { etransitivity; [|exact Hsub]. apply sublist_app; [reflexivity|].
    apply links_walk_sublist. }
  assert (Hlt : Forall (fun l => l < length (nodes s))
                  (tree_locs base ++ links_locs (chain_of body).2)).
  { pose proof (reify_lt _ _ _ _ (site_tree _ _ _ _ _ _ _ Hsite)) as Ht.
    rewrite Forall_forall in Ht |- *. intros l Hl. apply Ht.
    eapply elem_of_sublist; [exact Hl|exact Hsub']. }
  eexists s', result, _.
  split; [exact Hv|]. split; [exact Hp|]. split; [exact Hreads|].
  split; [|split; [|split; [|split]]].
  - apply guard_tree_locs_NoDup; [|exact Hlt].
    eapply sublist_NoDup; [exact Hnd|exact Hsub'].
  - apply Forall_app in Hlt as [Hb Hl].
    rewrite guard_tree_old_locs by (exact Hlen || lia || exact Hl).
    rewrite (filter_Forall_id _ _ Hb). reflexivity.
  - intros Hne. destruct (chain_of body).2 as [|lk links]; [contradiction|].
    destruct names as [|uid names]; [discriminate Hlen|].
    cbn [guard_tree]. do 7 eexists. reflexivity.
  - intros nullish. rewrite Forall_forall in Hlt.
    rewrite evaluated_guard_tree; [|exact Hlen|lia|].
    + assert (Hb : root base < length (nodes s)).
      { apply Hlt, elem_of_app. left. destruct base. left. }
      destruct base as [l n]. simpl in Hb |- *.
      apply Nat.ltb_lt in Hb. rewrite Hb. reflexivity.
    + apply Forall_forall. intros lk Hlk. apply Forall_forall. intros p Hin.
      apply Hlt, elem_of_app. right.
      eapply elem_of_links_locs; [exact Hin|exact Hlk|]. destruct p. left.
  - eapply sublist_NoDup; [eapply sublist_NoDup; [exact Hnd|exact Hsub']|].
    destruct base as [l n]. rewrite walk_Node. simpl.
    apply sublist_skip, sublist_inserts_l, links_roots_sublist.
Qed.

Lemma scenario_A_NoDup : NoDup (tree_locs (tree_at scenario_A 3)).
Proof. refine (bool_decide_unpack _ _). vm_compute. exact I. Qed.

Lemma original_nodes_once_witness :
  call_site scenario_A statement_path 10 (tree_at scenario_A 3)
    scenario_A_base "x" scenario_A_body
  /\ NoDup (tree_locs (tree_at scenario_A 3))
  /\ exists s' result built,
       CallExpression_visitor 10 statement_path scenario_A = (Return tt, s')
       /\ path_node statement_path s' = (Return result, s')
       /\ reads (nodes s') result built
       /\ NoDup (tree_locs built)
       /\ filter (fun l => l < length (nodes scenario_A)) (tree_locs built)
          = tree_locs scenario_A_base
            ++ links_locs (chain_of scenario_A_body).2
       /\ ((chain_of scenario_A_body).2 <> [] ->
           exists l1 l2 l3 target null consequent alternate,
             built
             = Node l1
                 (ConditionalExpression
                    (Node l2
                       (BinaryExpression "!="
                          (Node l3
                             (AssignmentExpression "=" target
                                scenario_A_base))
                          null))
                    consequent alternate))
       /\ (forall nullish,
             evaluated (length (nodes scenario_A)) nullish built
             = root scenario_A_base
               :: links_roots
                    (take (passed nullish (length (nodes scenario_A))
                             (length (chain_of scenario_A_body).2))
                       (chain_of scenario_A_body).2))
       /\ NoDup (root scenario_A_base
                 :: links_roots (chain_of scenario_A_body).2).
Proof.
  split; [exact scenario_A_site|]. split; [exact scenario_A_NoDup|].
  exact (original_nodes_once 10 statement_path scenario_A _ _ _ _
           scenario_A_site scenario_A_NoDup).
Defined.

(** The locations of scenario A's expression in the order of evaluation:
    the base (5) comes first of the call's nodes, then [b] (12), then
    [c] (10). *)
Example scenario_A_order :
  tree_locs scenario_A_built
  = [20; 18; 16; 15; 5; 17; 28; 26; 24; 23; 14; 13; 12; 25; 22; 21; 10; 27;
     19].
Proof. reflexivity. Qed.

(** ** The test of a guard *)

(** C7.  After the visit of a call site, the guard of each link is the
    conditional [(uid = previous) != null ? consequent : uid]: its test is
    the comparison [!=], with a null literal, of the assignment to the
    link's temporary of the previous value, which is the base for the first
    link and for the others the link before applied to its own temporary;
    its consequent is the guard of the link after, or for the last link the
    link applied to its temporary; its alternate is the temporary.  Every
    conditional the visit built is one of these guards, and every comparison
    the visit built is [!=]. *)
Theorem guards_compare_loosely {G : Type} `{!UidGenerator G} fuel path
    (s : State G) t base x body :
  call_site s path fuel t base x body ->
  exists s',
    CallExpression_visitor fuel path s = (Return tt, s')
    /\ (forall k uid lk,
          (mint (length (chain_of body).2) (uidState s)).1 !! k = Some uid ->
          (chain_of body).2 !! k = Some lk ->
          is_guard (nodes s') (length (nodes s) + 8 * k + 7) uid
            (previous_value (length (nodes s)) (root base) k)
            (consequent_of (length (nodes s)) (length (chain_of body).2) k)
          /\ nodes s' !! (length (nodes s) + 8 * k) = Some (Identifier uid)
          /\ nodes s' !! (length (nodes s) + 8 * k + 1)
             = Some (next_value (length (nodes s) + 8 * k)
                       (link_map root lk)))
    /\ (forall l test consequent alternate,
          length (nodes s) <= l ->
          nodes s' !! l
            = Some (ConditionalExpression test consequent alternate) ->
          exists k uid,
            l = length (nodes s) + 8 * k + 7
            /\ (mint (length (chain_of body).2) (uidState s)).1 !! k
               = Some uid
            /\ is_guard (nodes s') l uid
                 (previous_value (length (nodes s)) (root base) k)
                 (consequent_of (length (nodes s))
                    (length (chain_of body).2) k))
    /\ (forall l operator lhs rhs,
          length (nodes s) <= l ->
          nodes s' !! l = Some (BinaryExpression operator lhs rhs) ->
          operator = "!=").
Proof.
  intros Hsite.
  destruct (site_visit _ _ _ _ _ _ _ Hsite)
    as (c & s' & result & Hc & Hv & _ & Hn & _ & _ & _ & _).
  pose proof (mint_length (length (chain_of body).2) (uidState s)) as Hlen.
  set (names := (mint (length (chain_of body).2) (uidState s)).1) in *.
  set (links := List.map (link_map root) (chain_of body).2) in *.
  set (cells := guard_cells (length (nodes s)) (root base) links names) in *.
  assert (Hlinks : length names = length links)
    by (unfold links; rewrite length_map; exact Hlen).
  assert (Hcells : forall j cell, cells !! j = Some cell ->
            nodes s' !! (length (nodes s) + j) = Some cell).
  { intros j cell Hj. rewrite Hn.
    rewrite lookup_app_r by (rewrite length_insert; lia).
    rewrite length_insert.
    replace (length (nodes s) + j - length (nodes s)) with j by lia.
    rewrite lookup_app_l by (eapply lookup_lt_Some; eauto). exact Hj. }
  assert (Hnew : forall l cell, length (nodes s) <= l ->
            nodes s' !! l = Some cell ->
            cells !! (l - length (nodes s)) = Some cell
            \/ exists uid, cell = Identifier uid).
  { intros l cell Hl Hcell. rewrite Hn in Hcell.
    rewrite lookup_app_r in Hcell by (rewrite length_insert; lia).
    rewrite length_insert in Hcell.
    apply lookup_app_Some in Hcell as [Hcell|[_ Hcell]]; [left; exact Hcell|].
    right. change (List.map Identifier names) with (@Identifier loc <$> names)
      in Hcell.
    apply list_lookup_fmap_Some in Hcell as (uid & -> & _). eauto. }
  assert (Hguard : forall k uid lk,
            names !! k = Some uid -> links !! k = Some lk ->
            is_guard (nodes s') (length (nodes s) + 8 * k + 7) uid
              (previous_value (length (nodes s)) (root base) k)
              (consequent_of (length (nodes s)) (length (chain_of body).2) k)
            /\ nodes s' !! (length (nodes s) + 8 * k) = Some (Identifier uid)
            /\ nodes s' !! (length (nodes s) + 8 * k + 1)
               = Some (next_value (length (nodes s) + 8 * k) lk)).
  { intros k uid lk Hu Hlk.
    replace (length (chain_of body).2) with (length links)
      by (unfold links; apply length_map).
    exact (guard_cells_guard _ _ _ _ _ _ _ _ Hlinks Hcells Hlk Hu). }
  exists s'. split; [exact Hv|]. split; [|split].
  - intros k uid lk Hu Hlk. apply Hguard; [exact Hu|].
    unfold links. change (List.map (link_map root) (chain_of body).2)
      with (link_map root <$> (chain_of body).2).
    rewrite list_lookup_fmap, Hlk. reflexivity.
  - intros l test consequent alternate Hl Hcell.
    destruct (Hnew _ _ Hl Hcell) as [Hin|[uid Huid]]; [|discriminate Huid].
    destruct (guard_cells_conditional _ _ _ _ _ _ _ _ Hin)
      as (k & Hk & Hkl & Hkn).
    destruct (lookup_lt_is_Some_2 names k Hkn) as [uid Hu].
    destruct (lookup_lt_is_Some_2 links k Hkl) as [lk Hlk].
    exists k, uid. split; [lia|]. split; [exact Hu|].
    replace l with (length (nodes s) + 8 * k + 7) by lia.
    exact (proj1 (Hguard _ _ _ Hu Hlk)).
  - intros l operator lhs rhs Hl Hcell.
    destruct (Hnew _ _ Hl Hcell) as [Hin|[uid Huid]]; [|discriminate Huid].
    eapply guard_cells_operator. exact Hin.
Qed.

Lemma guards_compare_loosely_witness :
  call_site scenario_A statement_path 10 (tree_at scenario_A 3)
    scenario_A_base "x" scenario_A_body
  /\ exists s',
       CallExpression_visitor 10 statement_path scenario_A = (Return tt, s')
       /\ (forall k uid lk,
             (mint (length (chain_of scenario_A_body).2)
                (uidState scenario_A)).1 !! k = Some uid ->
             (chain_of scenario_A_body).2 !! k = Some lk ->
             is_guard (nodes s') (length (nodes scenario_A) + 8 * k + 7) uid
               (previous_value (length (nodes scenario_A))
                  (root scenario_A_base) k)
               (consequent_of (length (nodes scenario_A))
                  (length (chain_of scenario_A_body).2) k)
             /\ nodes s' !! (length (nodes scenario_A) + 8 * k)
                = Some (Identifier uid)
             /\ nodes s' !! (length (nodes scenario_A) + 8 * k + 1)
                = Some (next_value (length (nodes scenario_A) + 8 * k)
                          (link_map root lk)))
       /\ (forall l test consequent alternate,
             length (nodes scenario_A) <= l ->
             nodes s' !! l
               = Some (ConditionalExpression test consequent alternate) ->
             exists k uid,
               l = length (nodes scenario_A) + 8 * k + 7
               /\ (mint (length (chain_of scenario_A_body).2)
                     (uidState scenario_A)).1 !! k = Some uid
               /\ is_guard (nodes s') l uid
                    (previous_value (length (nodes scenario_A))
                       (root scenario_A_base) k)
                    (consequent_of (length (nodes scenario_A))
                       (length (chain_of scenario_A_body).2) k))
       /\ (forall l operator lhs rhs,
             length (nodes scenario_A) <= l ->
             nodes s' !! l = Some (BinaryExpression operator lhs rhs) ->
             operator = "!=").
Proof.
  split; [exact scenario_A_site|].
  exact (guards_compare_loosely 10 statement_path scenario_A _ _ _ _
           scenario_A_site).
Defined.

(** The guards of scenario A: the first assigns the base [a] (5), the
    second the access [_ref.b] (13), which is the first link on its
    temporary. *)
Example scenario_A_guards :
  is_guard (nodes scenario_A_done) 20 "_ref" 5 28
  /\ is_guard (nodes scenario_A_done) 28 "_ref2" 14 22
  /\ nodes scenario_A_done !! 14 = Some (MemberExpression 13 12 false)
  /\ nodes scenario_A_done !! 13 = Some (Identifier "_ref")
  /\ nodes scenario_A_done !! 22 = Some (MemberExpression 21 10 false)
  /\ nodes scenario_A_done !! 21 = Some (Identifier "_ref2").
Proof.
  split; [exists 18, 19, 16, 17, 15; repeat split|].
  split; [exists 26, 27, 24, 25, 23; repeat split|].
  repeat split.
Qed.

(** ** Units and the pre-filter *)

(** C8, as the code has it.  A unit whose tree has no call of the
    identifier [idx] is left as it is, whether the pre-filter admits it or
    not.  The pre-filter admits a unit, that is the unit is walked, when
    [idx] is bound in the program's scope or stands in the source text
    between two word boundaries; when neither holds the unit is not walked
    and stays as it is, whatever its tree contains. *)
Theorem units_and_prefilter {G : Type} `{!UidGenerator G} fuel path
    (s : State G) program t :
  path_node path s = (Return program, s) ->
  reify fuel (nodes s) program = Some t ->
  (forall ownBinding code,
     Forall (fun c => is_trigger_call c = false) (subtrees t) ->
     Program fuel ownBinding code path s = (Return tt, s))
  /\ (forall code,
        Program fuel true code path s
        = path_traverse fuel (CallExpression_visitor fuel) path s)
  /\ (forall ownBinding before after,
        ends_outside_word false before = true ->
        starts_outside_word after = true ->
        Program fuel ownBinding
          (String.append before (String.append "idx" after)) path s
        = path_traverse fuel (CallExpression_visitor fuel) path s)
  /\ (forall code,
        idxRe_test code = false ->
        Program fuel false code path s = (Return tt, s)).
Proof.
  intros Hp Hr. split; [|split; [|split]].
  - intros ownBinding code Hno. unfold Program.
    destruct (ownBinding || idxRe_test code); [|reflexivity].
    unfold path_traverse, bind at 1. rewrite Hp.
    unfold bind at 1, read. rewrite (reify_lookup _ _ _ _ Hr).
    rewrite node_children_map, length_map.
    pose proof (reify_children _ _ _ _ Hr) as Hc.
    pose proof (reify_lookup _ _ _ _ Hr) as Hn.
    pose proof (reify_root _ _ _ _ Hr) as Hroot.
    destruct t as [l n]. simpl in Hc, Hn, Hroot |- *. subst l.
    rewrite subtrees_Node in Hno. apply Forall_cons in Hno as [_ Hno].
    apply children_skip. intros k c Hk.
    apply (traverse_skip _ _ _ _ (root c) c).
    + eapply path_node_child; [exact Hn|].
      rewrite node_children_map.
      change (List.map root (node_children n)) with (root <$> node_children n).
      rewrite list_lookup_fmap, Hk. reflexivity.
    + rewrite Forall_forall in Hc. apply Hc. eapply list_elem_of_lookup_2, Hk.
    + rewrite Forall_forall in Hno |- *. intros c' Hc'. apply Hno.
      apply list_elem_of_In, in_concat. exists (subtrees c). split.
      * apply in_map, list_elem_of_In. eapply list_elem_of_lookup_2, Hk.
      * apply list_elem_of_In, Hc'.
  - reflexivity.
  - intros ownBinding before after Hb Ha. unfold Program, idxRe_test.
    rewrite (idxRe_from_word _ _ _ Hb Ha), orb_true_r. reflexivity.
  - intros code Hcode. unfold Program. rewrite Hcode. reflexivity.
Qed.

Lemma units_and_prefilter_witness :
  path_node program_path other_call = (Return 1, other_call)
  /\ reify 10 (nodes other_call) 1 = Some (tree_at other_call 1)
  /\ Forall (fun c => is_trigger_call c = false)
       (subtrees (tree_at other_call 1))
  /\ Program 10 true "f(a)" program_path other_call = (Return tt, other_call).
Proof.
  assert (H1 : path_node program_path other_call = (Return 1, other_call))
    by reflexivity.
  assert (H2 : reify 10 (nodes other_call) 1 = Some (tree_at other_call 1))
    by reflexivity.
  assert (H3 : Forall (fun c => is_trigger_call c = false)
                 (subtrees (tree_at other_call 1))).
  { refine (bool_decide_unpack _ _). vm_compute. exact I. }
  split; [exact H1|]. split; [exact H2|]. split; [exact H3|].
  exact (proj1 (units_and_prefilter 10 program_path other_call 1 _ H1 H2)
           true "f(a)" H3).
Defined.

(** C8 as the spec states it fails: the pre-filter skips a unit that
    contains a call of [idx].  The unit is that of scenario A, in which [idx]
    is not bound; its text spells the identifier with an escape, so the
    regular expression finds no [idx] in it (the same happens when the host
    is given a tree and no text).  The unit is left as it is, with the call
    in it, while the walk would have rewritten the call. *)
Lemma prefilter_counterexample :
  idxRe_test "\u0069dx(a, x => x.b.c)" = false
  /\ 3 ∈ tree_locs (tree_at scenario_A 1)
  /\ is_trigger_call (tree_at scenario_A 3) = true
  /\ checkIdxArguments 10 (nodes scenario_A) 3 = Return tt
  /\ Program 10 false "\u0069dx(a, x => x.b.c)" program_path scenario_A
     = (Return tt, scenario_A)
  /\ path_traverse 10 (CallExpression_visitor 10) program_path scenario_A
     = (Return tt, scenario_A_walked)
  /\ scenario_A_walked <> scenario_A.
Proof.
  split; [reflexivity|].
  split; [refine (bool_decide_unpack _ _); vm_compute; exact I|].
  split; [reflexivity|]. split; [reflexivity|]. split; [reflexivity|].
  split; [vm_compute; reflexivity|].
  intros H. apply (f_equal (fun s => length (nodes s))) in H.
  vm_compute in H. discriminate H.
Qed.

(** * Part III.  More of what the code does *)

(** ** What a visit keeps *)

Section Frame.

Context {G : Type} `{!UidGenerator G}.

Lemma keeps_refl n0 (s : State G) : keeps n0 s s.
Proof. repeat split; reflexivity. Qed.





Lemma grows_weaken {A} n0 (Q Q' : A -> Prop) (m : M G A) :
  grows n0 Q m -> (forall a, Q a -> Q' a) -> grows n0 Q' m.
Proof.
  intros Hm Hq s Hs. destruct (Hm s Hs) as [Hkeep Ha].
  split; [exact Hkeep|]. intros a Hr. apply Hq, Ha, Hr.
Qed.

Lemma grows_reading {A} n0 (f : list (node nat) -> outcome A) :
  grows n0 (fun _ => True) (reading (G:=G) f).
Proof. intros s _. split; [apply keeps_refl|]. intros; exact I. Qed.











End Frame.



(** ** The base of a chain *)

Lemma getExpressionChainBase_mono fuel (h : list (node nat)) :
  forall fuel' node b,
  getExpressionChainBase fuel h node = Some b -> fuel <= fuel' ->
  getExpressionChainBase fuel' h node = Some b.
Proof.
  induction fuel as [|fuel IH]; intros fuel' node b Hb Hle; [discriminate|].
  destruct fuel' as [|fuel']; [lia|]. simpl in Hb |- *.
  destruct (h !! node) as [[]|]; try exact Hb; apply IH; (exact Hb || lia).
Qed.

Lemma getExpressionChainBase_result fuel (h : list (node nat)) :
  forall node b,
  getExpressionChainBase fuel h node = Some b ->
  exists n, h !! b = Some n
            /\ match n with
               | MemberExpression _ _ _ | CallExpression _ _ => False
               | _ => True
               end.
Proof.
  induction fuel as [|fuel IH]; intros node b Hb; [discriminate|].
  simpl in Hb. destruct (h !! node) as [n|] eqn:Hn; [|discriminate].
  destruct n; try (injection Hb as <-; eexists; split; [exact Hn|exact I]);
    eapply IH, Hb.
Qed.

(** X2.  [getExpressionChainBase] returns on every node that the store
    holds a tree at, and what it returns is the root of the chain of that
    tree.  Whenever it returns, on any store, the node it returns is neither
    a call nor a member access, and the function returns that node
    unchanged when it is called on it; a larger budget gives the same
    result. *)
Theorem chain_base_is_no_link fuel (h : list (node nat)) node :
  (forall t,
     reify fuel h node = Some t ->
     getExpressionChainBase fuel h node = Some (root (chain_of t).1))
  /\ (forall b,
        getExpressionChainBase fuel h node = Some b ->
        isCallExpression h b = false
        /\ isMemberExpression h b = false
        /\ is_Some (h !! b)
        /\ getExpressionChainBase fuel h b = Some b
        /\ forall fuel',
             fuel <= fuel' -> getExpressionChainBase fuel' h node = Some b).
Proof.
  split; [intros t Hr; exact (getExpressionChainBase_tree _ _ _ _ Hr)|].
  intros b Hb.
  cut (isCallExpression h b = false
       /\ isMemberExpression h b = false
       /\ is_Some (h !! b)
       /\ getExpressionChainBase fuel h b = Some b).
  { intros (H1 & H2 & H3 & H4). repeat (split; [assumption|]).
    intros fuel' Hle. eapply getExpressionChainBase_mono; eassumption. }
  destruct (getExpressionChainBase_result _ _ _ _ Hb) as (n & Hn & Hk).
  unfold isCallExpression, isMemberExpression. rewrite Hn.
  repeat split; try (destruct n; (reflexivity || contradiction)); eauto.
  destruct fuel as [|fuel]; [discriminate|]. simpl. rewrite Hn.
  destruct n; (reflexivity || contradiction).
Qed.

Lemma chain_base_is_no_link_witness :
  getExpressionChainBase 10 (nodes scenario_A) 8 = Some 11
  /\ isCallExpression (nodes scenario_A) 11 = false
  /\ isMemberExpression (nodes scenario_A) 11 = false
  /\ getExpressionChainBase 10 (nodes scenario_A) 11 = Some 11.
Proof.
  assert (H : getExpressionChainBase 10 (nodes scenario_A) 8 = Some 11)
    by reflexivity.
  split; [exact H|].
  destruct (proj2 (chain_base_is_no_link 10 (nodes scenario_A) 8) 11 H)
    as (H1 & H2 & _ & H3 & _).
  split; [exact H1|]. split; [exact H2|exact H3].
Defined.

(** ** Where the errors point *)

(** X3.  When the validator throws, the error is one of five, each with its
    node: the call when it does not have two arguments; the second argument
    when it is not an arrow function; the body when it is not an expression;
    when the arrow function does not have one parameter, its third
    parameter when it has one and the arrow function itself when it has
    none or two; and the parameter when it does not match the base of the
    body. *)
Theorem errors_point_at fuel (h : list (node nat)) call e :
  checkIdxArguments fuel h call = Throw e ->
  exists callee args,
    h !! call = Some (CallExpression callee args)
    /\ ((length args <> 2
         /\ e = {| error_node := call; message := arity_message |})
        \/ exists base arrowFunction,
             args = [base; arrowFunction]
             /\ ((isArrowFunctionExpression h arrowFunction = false
                  /\ e = {| error_node := arrowFunction;
                            message := arrow_message |})
                 \/ exists params body,
                      h !! arrowFunction
                      = Some (ArrowFunctionExpression params body)
                      /\ ((isExpression h body = false
                           /\ e = {| error_node := body;
                                     message := body_message |})
                          \/ (isExpression h body = true
                              /\ (params = [] \/ length params = 2)
                              /\ e = {| error_node := arrowFunction;
                                        message := params_message |})
                          \/ (isExpression h body = true
                              /\ exists third,
                                   params !! 2 = Some third
                                   /\ e = {| error_node := third;
                                             message := params_message |})
                          \/ (isExpression h body = true
                              /\ exists param,
                                   params = [param]
                                   /\ e = {| error_node := param;
                                             message := match_message |})))).
Proof.
  unfold checkIdxArguments, isArrowFunctionExpression. intros He.
  destruct (h !! call) as [[| | |callee args| | | | |]|]; try discriminate.
  exists callee, args. split; [reflexivity|].
  destruct args as [|base [|arrowFunction [|third args]]]; simpl in He;
    try (left; split; [simpl; lia|congruence]).
  right. exists base, arrowFunction. split; [reflexivity|].
  destruct (h !! arrowFunction) as [[| | | |params body| | | |]|];
    try discriminate; try (left; split; [reflexivity|congruence]).
  right. exists params, body. split; [reflexivity|].
  destruct (isExpression h body); simpl in He; [|left; split; congruence].
  right.
  destruct params as [|param [|second [|third params]]]; simpl in He.
  - left. split; [reflexivity|]. split; [left; reflexivity|congruence].
  - right. right. split; [reflexivity|]. exists param.
    split; [reflexivity|].
    destruct (getExpressionChainBase fuel h body); [|discriminate].
    destruct (_ || _); congruence.
  - left. split; [reflexivity|]. split; [right; reflexivity|congruence].
  - right. left. split; [reflexivity|]. exists third.
    split; [reflexivity|congruence].
Qed.

Lemma errors_point_at_witness :
  checkIdxArguments 10 (nodes two_parameters) 3
  = Throw {| error_node := 6; message := params_message |}
  /\ exists callee args,
       nodes two_parameters !! 3 = Some (CallExpression callee args).
Proof.
  assert (H : checkIdxArguments 10 (nodes two_parameters) 3
              = Throw {| error_node := 6; message := params_message |})
    by reflexivity.
  split; [exact H|].
  destruct (errors_point_at 10 (nodes two_parameters) 3 _ H)
    as (callee & args & Hcall & _).
  exists callee, args. exact Hcall.
Defined.

(** ** The regular expression *)

Lemma idx_here_inv s :
  idx_here s = true ->
  exists after, s = String.append "idx" after
                /\ starts_outside_word after = true.
Proof.
  destruct s as [|c1 [|c2 [|c3 rest]]]; [discriminate| | |].
  - destruct c1 as [[] [] [] [] [] [] [] []]; discriminate.
  - destruct c1 as [[] [] [] [] [] [] [] []]; try discriminate.
    destruct c2 as [[] [] [] [] [] [] [] []]; discriminate.
  - destruct c1 as [[] [] [] [] [] [] [] []]; try discriminate.
    destruct c2 as [[] [] [] [] [] [] [] []]; try discriminate.
    destruct c3 as [[] [] [] [] [] [] [] []]; try discriminate.
    intros Hs. exists rest. split; [reflexivity|exact Hs].
Qed.

Lemma idxRe_from_inv s : forall after_word,
  idxRe_from after_word s = true ->
  exists before after,
    s = String.append before (String.append "idx" after)
    /\ ends_outside_word after_word before = true
    /\ starts_outside_word after = true.
Proof.
  induction s as [|c rest IH]; intros after_word Hs; [discriminate|].
  cbn [idxRe_from] in Hs. apply orb_true_iff in Hs as [Hs|Hs].
  - apply andb_true_iff in Hs as [Hw Hs].
    destruct (idx_here_inv _ Hs) as (after & -> & Ha).
    exists "", after. split; [reflexivity|]. split; [exact Hw|exact Ha].
  - destruct (IH _ Hs) as (before & after & -> & Hb & Ha).
    exists (String c before), after. split; [reflexivity|].
    split; [exact Hb|exact Ha].
Qed.

(** X4.  [idxRe.test] holds of a text exactly when [idx] stands in it
    between two word boundaries: the text before it does not end in a word
    character, and the text after it does not start with one. *)
Theorem idxRe_test_spec code :
  idxRe_test code = true
  <-> exists before after,
        code = String.append before (String.append "idx" after)
        /\ ends_outside_word false before = true
        /\ starts_outside_word after = true.
Proof.
  split.
  - apply idxRe_from_inv.
  - intros (before & after & -> & Hb & Ha).
    exact (idxRe_from_word _ _ _ Hb Ha).
Qed.

(** ** Chains of any length *)

(** X5.  The visit of a call [idx(base, x => body)] whose body is a chain on
    [x] returns, whatever the length of the chain, and the expression it
    puts in the place of the call is the nest of guards of the chain: for
    each link, from the base outwards, [(uid = previous) != null ? next :
    uid], where [previous] is the base for the first link and the link
    before applied to its temporary for the others, and [next] is the guard
    of the link after, or the last link applied to its temporary; the
    temporaries are the names the generator returns, in that order. *)
Theorem every_chain_is_guarded {G : Type} `{!UidGenerator G} fuel path
    (s : State G) t base x body :
  call_site s path fuel t base x body ->
  exists s' result built,
    CallExpression_visitor fuel path s = (Return tt, s')
    /\ path_node path s' = (Return result, s')
    /\ reads (nodes s') result built
    /\ length (mint (length (chain_of body).2) (uidState s)).1
       = length (chain_of body).2
    /\ erase built
       = guard_expr (erase base)
           (List.map (link_map erase) (chain_of body).2)
           (mint (length (chain_of body).2) (uidState s)).1.
Proof.
  intros Hsite.
  destruct (site_visit _ _ _ _ _ _ _ Hsite)
    as (c & s' & result & _ & Hv & _ & _ & _ & _ & Hp & Hreads).
  exists s', result. eexists. split; [exact Hv|]. split; [exact Hp|].
  split; [exact Hreads|]. split; [apply mint_length|].
  apply erase_guard_tree.
Qed.

Lemma every_chain_is_guarded_witness :
  call_site scenario_A statement_path 10 (tree_at scenario_A 3)
    scenario_A_base "x" scenario_A_body
  /\ exists s' result built,
       CallExpression_visitor 10 statement_path scenario_A = (Return tt, s')
       /\ path_node statement_path s' = (Return result, s')
       /\ reads (nodes s') result built
       /\ length (mint (length (chain_of scenario_A_body).2)
                    (uidState scenario_A)).1
          = length (chain_of scenario_A_body).2
       /\ erase built
          = guard_expr (erase scenario_A_base)
              (List.map (link_map erase) (chain_of scenario_A_body).2)
              (mint (length (chain_of scenario_A_body).2)
                 (uidState scenario_A)).1.
Proof.
  split; [exact scenario_A_site|].
  exact (every_chain_is_guarded 10 statement_path scenario_A _ _ _ _
           scenario_A_site).
Defined.

(** ** What the links carry *)

Lemma subtrees_self t : t ∈ subtrees t.
Proof. destruct t. rewrite subtrees_Node. left. Qed.

Lemma subtrees_child l n c c' :
  c ∈ node_children n -> c' ∈ subtrees c -> c' ∈ subtrees (Node l n).
Proof.
  intros Hc Hc'. rewrite subtrees_Node. right.
  apply list_elem_of_In, in_concat. exists (subtrees c).
  split; [apply in_map, list_elem_of_In, Hc|apply list_elem_of_In, Hc'].
Qed.

Lemma subtrees_trans : forall t c c',
  c ∈ subtrees t -> c' ∈ subtrees c -> c' ∈ subtrees t.
Proof.
  induction t as [l n IH] using tree_ind'. intros c c' Hc Hc'.
  rewrite subtrees_Node in Hc. apply elem_of_cons in Hc as [->|Hc];
    [exact Hc'|].
  apply list_elem_of_In, in_concat in Hc as (k & Hk & Hc).
  apply in_map_iff in Hk as (d & <- & Hd).
  apply subtrees_child with (c := d); [apply list_elem_of_In, Hd|].
  rewrite Forall_forall in IH.
  apply (IH d (proj2 (list_elem_of_In _ _) Hd) c c');
    [apply list_elem_of_In, Hc|exact Hc'].
Qed.

(** The value before the first guard is in the tree of the guards. *)
Lemma guard_tree_previous links : forall names a prev,
  prev ∈ subtrees (guard_tree a prev links names).
Proof.
  destruct links as [|lk links]; intros [|uid names] a prev;
    try apply subtrees_self.
  cbn [guard_tree].
  eapply subtrees_child; [left|].
  eapply subtrees_child; [left|].
  eapply subtrees_child; [right; left|].
  apply subtrees_self.
Qed.

(** What the links carry is in the tree of the guards. *)
Lemma guard_tree_payload links : forall names a prev lk c,
  length names = length links ->
  lk ∈ links -> c ∈ link_children lk ->
  c ∈ subtrees (guard_tree a prev links names).
Proof.
  induction links as [|lk0 links IH]; intros [|uid names] a prev lk c Hlen
    Hlk Hc; try discriminate; [inversion Hlk|].
  injection Hlen as Hlen. cbn [guard_tree].
  eapply subtrees_child; [right; left|].
  apply elem_of_cons in Hlk as [->|Hlk]; [|eapply IH; eassumption].
  eapply subtrees_trans; [apply guard_tree_previous|].
  eapply subtrees_child; [|apply subtrees_self].
  destruct lk0; simpl in *; right; exact Hc.
Qed.

Lemma count_name_absent y (names : list string) :
  y ∉ names -> count_name y names = 0.
Proof.
  unfold count_name. induction names as [|z names IH]; intros Hy;
    [reflexivity|].
  simpl. apply not_elem_of_cons in Hy as [Hne Hy].
  destruct (String.eqb_spec y z); [contradiction|]. apply IH, Hy.
Qed.

(** X6.  The expression built for [idx(base, x => body)] holds the base
    and everything the links of the body carry, the property of each access
    and the arguments of each call, as they were: the same nodes with the
    same content.  So an identifier that is not one of the temporaries
    stands in the result as often as in the base and in what the links
    carry; the parameter [x] is replaced at the root of the chain only, and
    where it stands in a computed property or in an argument it stays. *)
Theorem payloads_are_kept {G : Type} `{!UidGenerator G} fuel path
    (s : State G) t base x body :
  call_site s path fuel t base x body ->
  exists s' result built,
    CallExpression_visitor fuel path s = (Return tt, s')
    /\ path_node path s' = (Return result, s')
    /\ reads (nodes s') result built
    /\ base ∈ subtrees built
    /\ (forall lk c,
          lk ∈ (chain_of body).2 -> c ∈ link_children lk ->
          c ∈ subtrees built)
    /\ (forall y,
          y ∉ (mint (length (chain_of body).2) (uidState s)).1 ->
          count_nodes (is_identifier_named y) built
          = count_nodes (is_identifier_named y) base
            + count_links (is_identifier_named y) (chain_of body).2).
Proof.
  intros Hsite.
  destruct (site_visit _ _ _ _ _ _ _ Hsite)
    as (c & s' & result & _ & Hv & _ & _ & _ & _ & Hp & Hreads).
  pose proof (mint_length (length (chain_of body).2) (uidState s)) as Hlen.
  exists s', result. eexists. split; [exact Hv|]. split; [exact Hp|].
  split; [exact Hreads|]. split; [apply guard_tree_previous|].
  split; [intros lk k; apply guard_tree_payload, Hlen|].
  intros y Hy. rewrite count_identifier_guard_tree by exact Hlen.
  rewrite (count_name_absent y) by exact Hy. lia.
Qed.

Lemma payloads_are_kept_witness :
  call_site scenario_A statement_path 10 (tree_at scenario_A 3)
    scenario_A_base "x" scenario_A_body
  /\ exists s' result built,
       CallExpression_visitor 10 statement_path scenario_A = (Return tt, s')
       /\ path_node statement_path s' = (Return result, s')
       /\ reads (nodes s') result built
       /\ scenario_A_base ∈ subtrees built.
Proof.
  split; [exact scenario_A_site|].
  destruct (payloads_are_kept 10 statement_path scenario_A _ _ _ _
              scenario_A_site)
    as (s' & result & built & Hv & Hp & Hr & Hb & _).
  exists s', result, built. repeat split; assumption.
Defined.

(** ** The outcomes of a visit *)






(** ** A second visit *)

(** X8.  After the visit of a call [idx(base, x => body)] the node at the
    path is no call of [idx], unless the chain has no link and the base is
    one itself: a second visit at the path returns and changes nothing. *)
Theorem second_visit_is_idle {G : Type} `{!UidGenerator G} fuel path
    (s : State G) t base x body :
  call_site s path fuel t base x body ->
  (chain_of body).2 <> [] \/ is_trigger_call base = false ->
  exists s',
    CallExpression_visitor fuel path s = (Return tt, s')
    /\ forall fuel', CallExpression_visitor fuel' path s' = (Return tt, s').
Proof.
  intros Hsite Hlinks.
  destruct (site_visit _ _ _ _ _ _ _ Hsite)
    as (c & s' & result & _ & Hv & _ & _ & _ & _ & Hp & [f Hreads]).
  exists s'. split; [exact Hv|]. intros fuel'.
  apply (visit_other _ _ _ result); [exact Hp|].
  rewrite (isIdxCall_tree _ _ _ _ Hreads).
  pose proof (mint_length (length (chain_of body).2) (uidState s)) as Hlen.
  destruct (chain_of body).2 as [|lk links],
    (mint _ (uidState s)).1 as [|uid names]; try discriminate.
  - destruct Hlinks as [Hl|Hb]; [contradiction|exact Hb].
  - reflexivity.
Qed.

Lemma second_visit_is_idle_witness :
  call_site scenario_A statement_path 10 (tree_at scenario_A 3)
    scenario_A_base "x" scenario_A_body
  /\ (chain_of scenario_A_body).2 <> []
  /\ exists s',
       CallExpression_visitor 10 statement_path scenario_A = (Return tt, s')
       /\ forall fuel',
            CallExpression_visitor fuel' statement_path s' = (Return tt, s').
Proof.
  assert (H : (chain_of scenario_A_body).2 <> []) by discriminate.
  split; [exact scenario_A_site|]. split; [exact H|].
  exact (second_visit_is_idle 10 statement_path scenario_A _ _ _ _
           scenario_A_site (or_introl H)).
Defined.

(** ** What a visit uses *)

(** X9.  The visit of a call [idx(base, x => body)] whose chain has [N]
    links asks the generator for [N] names, one after the other, and for
    no other; it builds [9 N] nodes, eight for each guard and one
    identifier for each declaration; and it declares [N] bindings. *)
Theorem visit_resources {G : Type} `{!UidGenerator G} fuel path
    (s : State G) t base x body :
  call_site s path fuel t base x body ->
  exists s',
    CallExpression_visitor fuel path s = (Return tt, s')
    /\ uidState s' = (mint (length (chain_of body).2) (uidState s)).2
    /\ length (nodes s') = length (nodes s) + 9 * length (chain_of body).2
    /\ length (declarations s')
       = length (declarations s) + length (chain_of body).2.
Proof.
  intros Hsite.
  destruct (site_visit _ _ _ _ _ _ _ Hsite)
    as (c & s' & result & _ & Hv & _ & Hn & Hu & Hd & _).
  pose proof (mint_length (length (chain_of body).2) (uidState s)) as Hlen.
  exists s'. split; [exact Hv|]. split; [exact Hu|].
  rewrite Hn, Hd, !length_app, length_insert, length_seq, length_map.
  rewrite guard_cells_length by (rewrite length_map; exact Hlen).
  rewrite length_map, Hlen. split; lia.
Qed.

Lemma visit_resources_witness :
  call_site scenario_A statement_path 10 (tree_at scenario_A 3)
    scenario_A_base "x" scenario_A_body
  /\ exists s',
       CallExpression_visitor 10 statement_path scenario_A = (Return tt, s')
       /\ uidState s'
          = (mint (length (chain_of scenario_A_body).2)
               (uidState scenario_A)).2
       /\ length (nodes s')
          = length (nodes scenario_A)
            + 9 * length (chain_of scenario_A_body).2
       /\ length (declarations s')
          = length (declarations scenario_A)
            + length (chain_of scenario_A_body).2.
Proof.
  split; [exact scenario_A_site|].
  exact (visit_resources 10 statement_path scenario_A _ _ _ _
           scenario_A_site).
Defined.

(** ** The identifiers of the declarations *)

(** The nodes of the guards are in the eight cells of each link. *)
Lemma guard_tree_locs_below links : forall names a prev l,
  l ∈ tree_locs (guard_tree a prev links names) ->
  l ∈ tree_locs prev \/ l ∈ links_locs links \/ l < a + 8 * length links.
Proof.
  induction links as [|lk links IH]; intros [|uid names] a prev l;
    try (left; assumption).
  rewrite walk_guard_tree, links_walk_cons. cbn [length].
  rewrite !elem_of_cons, !elem_of_app, !elem_of_cons, elem_of_app.
  intros [->|[->|[->|[->|[Hp|[->|[Hr|Hr]]]]]]]; try (right; right; lia).
  - left. exact Hp.
  - apply IH in Hr. rewrite walk_next, !elem_of_cons in Hr.
    destruct Hr as [[->|[->|Hr]]|[Hr|Hr]]; try (right; right; lia).
    + right. left. left. exact Hr.
    + right. left. right. exact Hr.
  - apply list_elem_of_singleton in Hr as ->. right. right. lia.
Qed.

(** X10.  The identifier of each declaration is a node of its own: the
    visit builds it after the guards, it is no node of the expression put
    in the place of the call, and no two declarations share one. *)
Theorem declarations_have_their_own_nodes {G : Type} `{!UidGenerator G}
    fuel path (s : State G) t base x body :
  call_site s path fuel t base x body ->
  exists s' result built ids,
    CallExpression_visitor fuel path s = (Return tt, s')
    /\ path_node path s' = (Return result, s')
    /\ reads (nodes s') result built
    /\ declarations s' = declarations s ++ ids
    /\ length ids = length (chain_of body).2
    /\ NoDup ids
    /\ Forall (fun l => length (nodes s) <= l /\ l ∉ tree_locs built) ids.
Proof.
  intros Hsite.
  destruct (site_visit _ _ _ _ _ _ _ Hsite)
    as (c & s' & result & _ & Hv & _ & _ & _ & Hd & Hp & Hreads).
  pose proof (site_old_locs _ _ _ _ _ _ _ Hsite) as Hold.
  rewrite Forall_forall in Hold.
  exists s', result. do 2 eexists.
  split; [exact Hv|]. split; [exact Hp|]. split; [exact Hreads|].
  split; [exact Hd|]. split; [apply length_seq|].
  split; [apply NoDup_seq|].
  apply Forall_forall. intros l Hl. apply elem_of_seq in Hl.
  split; [lia|]. intros Hin.
  apply guard_tree_locs_below in Hin as [Hin|[Hin|Hin]].
  - specialize (Hold l). rewrite elem_of_app in Hold.
    specialize (Hold (or_introl Hin)). lia.
  - specialize (Hold l). rewrite elem_of_app in Hold.
    specialize (Hold (or_intror Hin)). lia.
  - lia.
Qed.

Lemma declarations_have_their_own_nodes_witness :
  call_site scenario_A statement_path 10 (tree_at scenario_A 3)
    scenario_A_base "x" scenario_A_body
  /\ exists s' result built ids,
       CallExpression_visitor 10 statement_path scenario_A = (Return tt, s')
       /\ path_node statement_path s' = (Return result, s')
       /\ reads (nodes s') result built
       /\ declarations s' = declarations scenario_A ++ ids
       /\ length ids = length (chain_of scenario_A_body).2
       /\ NoDup ids
       /\ Forall (fun l => length (nodes scenario_A) <= l
                           /\ l ∉ tree_locs built) ids.
Proof.
  split; [exact scenario_A_site|].
  exact (declarations_have_their_own_nodes 10 statement_path scenario_A
           _ _ _ _ scenario_A_site).
Defined.

(** ** The calls of [idx] that are left *)

Lemma built_node_mono names names' c :
  names ⊆ names' -> built_node names c -> built_node names' c.
Proof.
  unfold built_node. intros Hsub.
  destruct (node_of c) as [uid| |[l []] ? ?|[l []] ?| | | | |]; auto.
Qed.

Lemma subtrees_inv l n c :
  c ∈ subtrees (Node l n) ->
  c = Node l n \/ exists d, d ∈ node_children n /\ c ∈ subtrees d.
Proof.
  rewrite subtrees_Node. intros Hc. apply elem_of_cons in Hc as [->|Hc];
    [left; reflexivity|right].
  apply list_elem_of_In, in_concat in Hc as (k & Hk & Hc).
  apply in_map_iff in Hk as (d & <- & Hd).
  exists d. split; apply list_elem_of_In; assumption.
Qed.

(** The subtrees of the guards: those of the value before the first guard,
    those of what the links carry, and the nodes the visit built. *)
Lemma guard_tree_subtrees links : forall names a prev c,
  length names = length links ->
  c ∈ subtrees (guard_tree a prev links names) ->
  c ∈ subtrees prev
  \/ (exists lk p, lk ∈ links /\ p ∈ link_children lk /\ c ∈ subtrees p)
  \/ built_node names c.
Proof.
  induction links as [|lk links IH]; intros [|uid names] a prev c Hlen Hc;
    try discriminate; [left; exact Hc|].
  injection Hlen as Hlen. cbn [guard_tree] in Hc.
  apply subtrees_inv in Hc as [->|(d & Hd & Hc)];
    [right; right; exact I|].
  simpl in Hd. rewrite !elem_of_cons in Hd.
  destruct Hd as [->|[->|[->|Hd]]]; [| | |inversion Hd].
  - (* the test *)
    apply subtrees_inv in Hc as [->|(d & Hd & Hc)];
      [right; right; exact I|].
    simpl in Hd. rewrite !elem_of_cons in Hd.
    destruct Hd as [->|[->|Hd]]; [| |inversion Hd].
    + apply subtrees_inv in Hc as [->|(d & Hd & Hc)];
        [right; right; exact I|].
      simpl in Hd. rewrite !elem_of_cons in Hd.
      destruct Hd as [->|[->|Hd]]; [| |inversion Hd].
      * apply subtrees_inv in Hc as [->|(d & Hd & _)];
          [|inversion Hd]. right. right. left.
      * left. exact Hc.
    + apply subtrees_inv in Hc as [->|(d & Hd & _)]; [|inversion Hd].
      right. right. exact I.
  - (* the consequent *)
    apply (IH names) in Hc as [Hc|[(lk' & p & Hlk & Hp & Hc)|Hc]];
      [|right; left; exists lk', p; split; [right; exact Hlk|auto]
       |right; right; eapply built_node_mono; [|exact Hc];
        intros y Hy; right; exact Hy|exact Hlen].
    apply subtrees_inv in Hc as [->|(d & Hd & Hc)].
    { right. right. destruct lk; left. }
    destruct lk; simpl in Hd; apply elem_of_cons in Hd as [->|Hd].
    + apply subtrees_inv in Hc as [->|(d & Hd & _)]; [|inversion Hd].
      right. right. left.
    + apply list_elem_of_singleton in Hd as ->. right. left.
      exists (PropertyAccess property computed), property.
      split; [left|]. split; [left|exact Hc].
    + apply subtrees_inv in Hc as [->|(d & Hd & _)]; [|inversion Hd].
      right. right. left.
    + right. left. exists (MethodCall arguments), d.
      split; [left|]. split; [exact Hd|exact Hc].
  - (* the alternate *)
    apply subtrees_inv in Hc as [->|(d & Hd & _)]; [|inversion Hd].
    right. right. left.
Qed.

(** X11.  The visit builds no call of [idx], when [idx] is none of the
    names the generator returns: the calls of [idx] in the expression put in
    the place of the call are those in the base and in what the links
    carry, which were in the call. *)
Theorem no_new_trigger_call {G : Type} `{!UidGenerator G} fuel path
    (s : State G) t base x body :
  call_site s path fuel t base x body ->
  "idx" ∉ (mint (length (chain_of body).2) (uidState s)).1 ->
  exists s' result built,
    CallExpression_visitor fuel path s = (Return tt, s')
    /\ path_node path s' = (Return result, s')
    /\ reads (nodes s') result built
    /\ forall c,
         c ∈ subtrees built -> is_trigger_call c = true ->
         c ∈ subtrees base
         \/ exists lk p,
              lk ∈ (chain_of body).2 /\ p ∈ link_children lk
              /\ c ∈ subtrees p.
Proof.
  intros Hsite Hidx.
  destruct (site_visit _ _ _ _ _ _ _ Hsite)
    as (c & s' & result & _ & Hv & _ & _ & _ & _ & Hp & Hreads).
  pose proof (mint_length (length (chain_of body).2) (uidState s)) as Hlen.
  exists s', result. eexists. split; [exact Hv|]. split; [exact Hp|].
  split; [exact Hreads|]. intros k Hk Ht.
  apply guard_tree_subtrees in Hk as [Hk|[Hk|Hk]]; [auto|auto| |exact Hlen].
  exfalso. unfold built_node in Hk. unfold is_trigger_call in Ht.
  destruct (node_of k) as [| | |[l []] ?| | | | |]; try discriminate.
  apply String.eqb_eq in Ht as ->. contradiction.
Qed.

Lemma no_new_trigger_call_witness :
  call_site scenario_A statement_path 10 (tree_at scenario_A 3)
    scenario_A_base "x" scenario_A_body
  /\ ("idx" ∉ (mint (length (chain_of scenario_A_body).2)
                 (uidState scenario_A)).1)
  /\ exists s' result built,
       CallExpression_visitor 10 statement_path scenario_A = (Return tt, s')
       /\ path_node statement_path s' = (Return result, s')
       /\ reads (nodes s') result built
       /\ forall c,
            c ∈ subtrees built -> is_trigger_call c = true ->
            c ∈ subtrees scenario_A_base
            \/ exists lk p,
                 lk ∈ (chain_of scenario_A_body).2 /\ p ∈ link_children lk
                 /\ c ∈ subtrees p.
Proof.
  assert (H : "idx" ∉ (mint (length (chain_of scenario_A_body).2)
                         (uidState scenario_A)).1).
  { refine (bool_decide_unpack _ _). vm_compute. exact I. }
  split; [exact scenario_A_site|]. split; [exact H|].
  exact (no_new_trigger_call 10 statement_path scenario_A _ _ _ _
           scenario_A_site H).
Defined.

(** ** The value of the built expression *)

Section EvaluationOfGuards.

Context {value : Type} (nullish : value -> bool) (old : nat -> value)
  (member : value -> nat -> bool -> value)
  (call : value -> list nat -> value).

Lemma value_of_guard_tree a links : forall names a' prev temps v temps1,
  length names = length links ->
  a <= a' ->
  value_of nullish old member call a temps prev = Some (v, temps1) ->
  exists temps2,
    value_of nullish old member call a temps (guard_tree a' prev links names)
    = Some (idx_value nullish member call v links, temps2).
Proof.
  induction links as [|lk links IH];
    intros [|uid names] a' prev temps v temps1 Hlen Ha Hprev;
    try discriminate; [exists temps1; exact Hprev|].
  injection Hlen as Hlen. cbn [guard_tree idx_value].
  assert (Hnew : forall k, (a' + k <? a) = false)
    by (intros k; apply Nat.ltb_ge; lia).
  assert (Hnew0 : (a' <? a) = false) by (apply Nat.ltb_ge; lia).
  cbn [value_of]. rewrite Hnew. cbn [String.eqb Ascii.eqb Bool.eqb].
  destruct (a' + 3 <? a) eqn:H3; [rewrite Hnew in H3; discriminate|].
  cbn [String.eqb Ascii.eqb Bool.eqb]. rewrite Hprev.
  assert (Huid : assign uid v temps1 uid = Some v)
    by (unfold assign; rewrite String.eqb_refl; reflexivity).
  destruct (nullish v).
  - rewrite Hnew, Huid. eauto.
  - apply (IH names (a' + 8) _ _ _ (assign uid v temps1) Hlen); [lia|].
    cbn [value_of]. rewrite Hnew.
    destruct lk; cbn [next_value value_of apply_link];
      rewrite Hnew0, Huid; reflexivity.
Qed.

End EvaluationOfGuards.

(** X12.  The expression built for [idx(base, x => body)] has a value,
    whatever the values of the nodes of the call and whatever the
    temporaries hold before, and it is the value the chain has from the
    base on: the links applied one after the other to the value of the
    base, up to the first value that is [null] or [undefined], which then
    is the value of the expression.  Every temporary has been assigned when
    it is read. *)
Theorem built_expression_value {G : Type} `{!UidGenerator G} fuel path
    (s : State G) t base x body :
  call_site s path fuel t base x body ->
  exists s' result built,
    CallExpression_visitor fuel path s = (Return tt, s')
    /\ path_node path s' = (Return result, s')
    /\ reads (nodes s') result built
    /\ forall (value : Type) (nullish : value -> bool) (old : nat -> value)
         (member : value -> nat -> bool -> value)
         (call : value -> list nat -> value) (temps : env),
         exists temps',
           value_of nullish old member call (length (nodes s)) temps built
           = Some (idx_value nullish member call (old (root base))
                     (chain_of body).2, temps').
Proof.
  intros Hsite.
  destruct (site_visit _ _ _ _ _ _ _ Hsite)
    as (c & s' & result & _ & Hv & _ & _ & _ & _ & Hp & Hreads).
  exists s', result. eexists. split; [exact Hv|]. split; [exact Hp|].
  split; [exact Hreads|]. intros value nullish old member call temps.
  apply (value_of_guard_tree _ _ _ _ _ _ _ _ _ temps _ temps);
    [apply mint_length|lia|].
  pose proof (reify_lt _ _ _ _ (site_tree _ _ _ _ _ _ _ Hsite)) as Ht.
  rewrite Forall_forall in Ht.
  assert (Hb : root base < length (nodes s)).
  { apply Ht. eapply elem_of_sublist;
      [|exact (idx_call_walk (fun l _ => l) _ _ _ _
                 (site_call _ _ _ _ _ _ _ Hsite))].
    apply elem_of_app. left. destruct base. left. }
  destruct base as [l n]. simpl in Hb |- *.
  replace (l <? length (nodes s)) with true
    by (symmetry; apply Nat.ltb_lt; exact Hb).
  reflexivity.
Qed.

Lemma built_expression_value_witness :
  call_site scenario_A statement_path 10 (tree_at scenario_A 3)
    scenario_A_base "x" scenario_A_body
  /\ exists s' result built,
       CallExpression_visitor 10 statement_path scenario_A = (Return tt, s')
       /\ path_node statement_path s' = (Return result, s')
       /\ reads (nodes s') result built
       /\ exists temps',
            value_of (fun v : option nat => bool_decide (v = None))
              (fun l => if l =? 5 then Some 7 else None)
              (fun v _ _ => v) (fun v _ => v)
              (length (nodes scenario_A)) (fun _ => None) built
            = Some (Some 7, temps').
Proof.
  split; [exact scenario_A_site|].
  destruct (built_expression_value 10 statement_path scenario_A _ _ _ _
              scenario_A_site)
    as (s' & result & built & Hv & Hp & Hr & Hval).
  exists s', result, built. split; [exact Hv|]. split; [exact Hp|].
  split; [exact Hr|].
  exact (Hval (option nat) (fun v => bool_decide (v = None))
           (fun l => if l =? 5 then Some 7 else None)
           (fun v _ _ => v) (fun v _ => v) (fun _ => None)).
Defined.
